(** * Galaxy cluster analysis notebook: a shallow embedding and its properties

    The notebook [galaxy_cluster_analysis.ipynb] is a straight-line pandas /
    numpy script.  Its computing cells are embedded here one by one, in the
    order in which they run; a cell either returns or raises.

    Numbers.  A float64 is modelled as an exact real number or NaN: rounding,
    overflow and infinities are not represented, so every formula is the one
    the cell writes, evaluated in exact arithmetic.  The cells of the
    catalogue are present, finite numbers.

    The plot cells and the printed statistics are not modelled; a plot cell
    can raise ([plt.hist] does on a column that holds NaN).  Of the prints
    only the removed share of the filter cell is modelled: it belongs to a
    computing cell and can raise. *)

From Stdlib Require Import Reals Lra Lia ZArith String List Sorted Permutation Bool Arith.
Import ListNotations.

Open Scope R_scope.

(** ** Floats: a real number or NaN *)

Inductive float : Type :=
| Fin (x : R)
| NaN.

Definition Req_b (a b : R) : bool := if Req_dec_T a b then true else false.
Definition Rle_b (a b : R) : bool := if Rle_dec a b then true else false.

Definition fadd (a b : float) : float :=
  match a, b with
  | Fin x, Fin y => Fin (x + y)
  | _, _ => NaN
  end.

Definition fsub (a b : float) : float :=
  match a, b with
  | Fin x, Fin y => Fin (x - y)
  | _, _ => NaN
  end.

Definition fmul (a b : float) : float :=
  match a, b with
  | Fin x, Fin y => Fin (x * y)
  | _, _ => NaN
  end.

(** [0 / 0] is NaN, as in numpy.  A non-zero number over zero is an infinity
    in numpy; infinities are outside this model, the quotient is NaN here and
    no statement below is made about such a quotient. *)
Definition fdiv (a b : float) : float :=
  match a, b with
  | Fin x, Fin y => if Req_b y 0 then NaN else Fin (x / y)
  | _, _ => NaN
  end.

(** [x ** 2] *)
Definition fsqr (a : float) : float := fmul a a.

(** [np.sqrt]: NaN below zero. *)
Definition fsqrt (a : float) : float :=
  match a with
  | Fin x => if Rle_b 0 x then Fin (sqrt x) else NaN
  | NaN => NaN
  end.

(** Comparisons: anything compared with NaN is [False]. *)
Definition fle (a b : float) : bool :=
  match a, b with
  | Fin x, Fin y => Rle_b x y
  | _, _ => false
  end.

Definition fge (a b : float) : bool := fle b a.

Fixpoint fsum (a : list float) : float :=
  match a with
  | [] => Fin 0
  | x :: t => fadd x (fsum t)
  end.

(** ** Constants (second code cell) *)

(** [c.to('km/s').value] of astropy: the speed of light in km/s. *)
Definition c_light : R := 299792.458.
(** [cosmo.H0.value] of astropy's Planck18: the Hubble constant in km/s/Mpc. *)
Definition H_0 : R := 67.66.
Definition q0 : R := -0.534.
(** [np.pi] *)
Definition np_pi : R := PI.

(** ** Python exceptions and the outcome of a cell *)

Inductive exception : Type :=
| ZeroDivisionError
| KeyError (name : string)
| ValueError.

Inductive outcome (A : Type) : Type :=
| Returned (a : A)
| Raised (e : exception).

Arguments Returned {A} a.
Arguments Raised {A} e.

Definition bind {A B : Type} (m : outcome A) (k : A -> outcome B) : outcome B :=
  match m with
  | Returned a => k a
  | Raised e => Raised e
  end.

Notation "x <- m ;; k" := (bind m (fun x => k))
  (at level 61, m at next level, right associativity).

(** ** The catalogue *)

(** One line of the CSV file, with its five columns. *)
Record row : Type := mkRow {
  objid : Z;
  ra : R;
  dec : R;
  specz : R;
  proj_sep : R
}.

Fixpoint Rsum (l : list R) : R :=
  match l with
  | [] => 0
  | x :: t => x + Rsum t
  end.

Definition Rmean (l : list R) : R := Rsum l / INR (length l).

(** ** Aggregation cell: [df.groupby('objid').agg({...}).reset_index()] *)

(** A group is never empty: it holds the first row met with its key and the
    rows met later, in the order of the file. *)
Record group : Type := mkGroup {
  key : Z;
  first_row : row;
  later_rows : list row
}.

Definition members (g : group) : list row := first_row g :: later_rows g.

(** Groups are kept in increasing order of their key ([sort=True]). *)
Fixpoint add_to_groups (r : row) (gs : list group) : list group :=
  match gs with
  | [] => [mkGroup (objid r) r []]
  | g :: gs' =>
      if (objid r <? key g)%Z then mkGroup (objid r) r [] :: gs
      else if (objid r =? key g)%Z
           then mkGroup (key g) (first_row g) (later_rows g ++ [r]) :: gs'
           else g :: add_to_groups r gs'
  end.

Definition groupby_objid (df : list row) : list group :=
  fold_left (fun gs r => add_to_groups r gs) df [].

(** ['specz': 'mean'], ['ra': 'first'], ['dec': 'first'],
    ['proj_sep': 'first']. *)
Definition agg (g : group) : row :=
  {| objid := key g;
     specz := Rmean (map specz (members g));
     ra := ra (first_row g);
     dec := dec (first_row g);
     proj_sep := proj_sep (first_row g) |}.

Definition aggregate_cell (df : list row) : list row :=
  map agg (groupby_objid df).

(** The rows of [df] that carry the identifier [k], in the order of the file. *)
Definition sharing (k : Z) (df : list row) : list row :=
  filter (fun r => (objid r =? k)%Z) df.

(** The groups built from the rows read so far: keys in increasing order, each
    group holding the rows of its key, every row in some group. *)
Definition grouped (pre : list row) (gs : list group) : Prop :=
  StronglySorted Z.lt (map key gs) /\
  (forall g, In g gs -> members g = sharing (key g) pre) /\
  (forall r, In r pre -> In (objid r) (map key gs)).

(** ** pandas reductions of a float column ([skipna=True]) *)

Fixpoint dropna (s : list float) : list R :=
  match s with
  | [] => []
  | Fin x :: t => x :: dropna t
  | NaN :: t => dropna t
  end.

(** [Series.mean()] *)
Definition series_mean (s : list float) : float :=
  match dropna s with
  | [] => NaN
  | xs => Fin (Rmean xs)
  end.

(** [Series.std()]: [ddof=1], NaN when [count - ddof <= 0]. *)
Definition series_std (s : list float) : float :=
  let xs := dropna s in
  let count := length xs in
  let d := (count - 1)%nat in
  if (d <=? 0)%nat then NaN
  else
    let avg := Rmean xs in
    Fin (sqrt (Rsum (map (fun x => (avg - x) * (avg - x)) xs) / INR d)).

(** [Series.max()] *)
Definition series_max (s : list float) : float :=
  match dropna s with
  | [] => NaN
  | x :: t => Fin (fold_left Rmax t x)
  end.

(** ** numpy reductions of an array (NaN is not skipped) *)

Definition np_mean (a : list float) : float :=
  fdiv (fsum a) (Fin (INR (length a))).

(** [np.std(a)]: [ddof=0]. *)
Definition np_std (a : list float) : float :=
  let arrmean := np_mean a in
  let x := map (fun v => fsub v arrmean) a in
  fsqrt (fdiv (fsum (map (fun v => fmul v v) x)) (Fin (INR (length a)))).

(** ** Limits cell *)

Record Limits : Type := mkLimits {
  mean_redshift : float;
  std_redshift : float;
  lower_limit : float;
  upper_limit : float
}.

(** [averaged_df['specz']] *)
Definition specz_column (t : list row) : list float :=
  map (fun r => Fin (specz r)) t.

Definition limits_cell (averaged_df : list row) : Limits :=
  let mean_redshift := series_mean (specz_column averaged_df) in
  let std_redshift := series_std (specz_column averaged_df) in
  {| mean_redshift := mean_redshift;
     std_redshift := std_redshift;
     lower_limit := fsub mean_redshift (fmul (Fin 3) std_redshift);
     upper_limit := fadd mean_redshift (fmul (Fin 3) std_redshift) |}.

(** ** Data frames that receive new columns *)

Inductive Series : Type :=
| Int64 (v : list Z)
| Float64 (v : list float).

Definition values (s : Series) : list float :=
  match s with
  | Int64 v => map (fun k => Fin (IZR k)) v
  | Float64 v => v
  end.

Definition series_len (s : Series) : nat :=
  match s with
  | Int64 v => length v
  | Float64 v => length v
  end.

(** Row labels and the columns in their order. *)
Record DataFrame : Type := mkDF {
  index : list nat;
  columns : list (string * Series)
}.

Fixpoint lookup (name : string) (cols : list (string * Series)) : option Series :=
  match cols with
  | [] => None
  | (n, s) :: t => if String.eqb n name then Some s else lookup name t
  end.

(** A column of that name is replaced where it stands, a new one goes last. *)
Fixpoint assign (name : string) (s : Series) (cols : list (string * Series))
  : list (string * Series) :=
  match cols with
  | [] => [(name, s)]
  | (n, c) :: t =>
      if String.eqb n name then (name, s) :: t else (n, c) :: assign name s t
  end.

(** [df[name]] *)
Definition getitem (name : string) (df : DataFrame) : outcome Series :=
  match lookup name (columns df) with
  | Some s => Returned s
  | None => Raised (KeyError name)
  end.

(** [df[name] = s] *)
Definition setitem (name : string) (s : Series) (df : DataFrame)
  : outcome DataFrame :=
  if (series_len s =? length (index df))%nat
  then Returned (mkDF (index df) (assign name s (columns df)))
  else Raised ValueError.

(** [df[name].iloc[i]], as a float. *)
Definition cell (name : string) (i : nat) (df : DataFrame) : option float :=
  match lookup name (columns df) with
  | Some s => nth_error (values s) i
  | None => None
  end.

(** ** Filter cell *)

(** [reset_index()] labels the rows 0, 1, 2, ... *)
Definition enumerate {A : Type} (l : list A) : list (nat * A) :=
  combine (seq 0 (length l)) l.

Definition ge_scalar (s : list float) (x : float) : list bool :=
  map (fun v => fge v x) s.

Definition le_scalar (s : list float) (x : float) : list bool :=
  map (fun v => fle v x) s.

Fixpoint mask_and (a b : list bool) : list bool :=
  match a, b with
  | x :: a', y :: b' => (x && y) :: mask_and a' b'
  | _, _ => []
  end.

(** [frame[mask]] *)
Fixpoint boolean_index {A : Type} (mask : list bool) (rows : list A) : list A :=
  match mask, rows with
  | m :: mask', r :: rows' =>
      if m then r :: boolean_index mask' rows' else boolean_index mask' rows'
  | _, _ => []
  end.

(** The frame of labelled rows; after [reset_index()] the columns stand in the
    order objid, specz, ra, dec, proj_sep. *)
Definition to_frame (rows : list (nat * row)) : DataFrame :=
  {| index := map fst rows;
     columns :=
       [ ("objid"%string, Int64 (map (fun p => objid (snd p)) rows));
         ("specz"%string, Float64 (map (fun p => Fin (specz (snd p))) rows));
         ("ra"%string, Float64 (map (fun p => Fin (ra (snd p))) rows));
         ("dec"%string, Float64 (map (fun p => Fin (dec (snd p))) rows));
         ("proj_sep"%string, Float64 (map (fun p => Fin (proj_sep (snd p))) rows)) ] |}.

(** Both comparisons of the mask, for one redshift. *)
Definition within (lo hi : float) (z : R) : bool :=
  fge (Fin z) lo && fle (Fin z) hi.

Definition retained (averaged_df : list row) (lim : Limits) : list (nat * row) :=
  boolean_index
    (mask_and (ge_scalar (specz_column averaged_df) (lower_limit lim))
              (le_scalar (specz_column averaged_df) (upper_limit lim)))
    (enumerate averaged_df).

(** The last [print] of the cell divides by [len(averaged_df)], both operands
    being Python integers. *)
Definition filter_cell (averaged_df : list row) (lim : Limits)
  : outcome DataFrame :=
  let filtered_df := to_frame (retained averaged_df lim) in
  if (length averaged_df =? 0)%nat then Raised ZeroDivisionError
  else Returned filtered_df.

(** ** Velocity cell: [filtered_df['velocity'] = c_light * filtered_df['specz']] *)

Definition velocity_cell (filtered_df : DataFrame) : outcome DataFrame :=
  z <- getitem "specz" filtered_df ;;
  setitem "velocity" (Float64 (map (fun v => fmul (Fin c_light) v) (values z)))
          filtered_df.

(** ** Kinematics cell *)

Record Kinematics : Type := mkKinematics {
  cluster_redshift : float;
  v_dispersion : list float;
  disp : float
}.

(** [c_light * ((1 + z)**2 - (1 + z_cluster)**2) / ((1 + z)**2 + (1 + z_cluster)**2)] *)
Definition doppler (z z_cluster : float) : float :=
  fdiv (fmul (Fin c_light)
             (fsub (fsqr (fadd (Fin 1) z)) (fsqr (fadd (Fin 1) z_cluster))))
       (fadd (fsqr (fadd (Fin 1) z)) (fsqr (fadd (Fin 1) z_cluster))).

Definition kinematics_cell (filtered_df : DataFrame)
  : outcome (DataFrame * Kinematics) :=
  s <- getitem "specz" filtered_df ;;
  let cluster_redshift := series_mean (values s) in
  let z := values s in
  let z_cluster := cluster_redshift in
  let v_dispersion := map (fun zi => doppler zi z_cluster) z in
  filtered_df' <- setitem "v_dispersion" (Float64 v_dispersion) filtered_df ;;
  Returned (filtered_df',
            {| cluster_redshift := cluster_redshift;
               v_dispersion := v_dispersion;
               disp := np_std v_dispersion |}).

(** ** Geometry cell *)

Record Geometry : Type := mkGeometry {
  r_comoving : float;
  D_A : float;
  max_sep_arcmin : float;
  max_sep_radians : float;
  diameter : float
}.

Definition geometry_cell (filtered_df : DataFrame) (cluster_redshift : float)
  : outcome Geometry :=
  let z_cluster := cluster_redshift in
  let r_comoving :=
    fmul (fdiv (fmul (Fin c_light) z_cluster) (Fin H_0))
         (fsub (Fin 1) (fmul (fdiv z_cluster (Fin 2)) (fadd (Fin 1) (Fin q0)))) in
  let D_A := fdiv r_comoving (fadd (Fin 1) z_cluster) in
  p <- getitem "proj_sep" filtered_df ;;
  let max_sep_arcmin := series_max (values p) in
  let max_sep_radians :=
    fdiv (fmul max_sep_arcmin (fdiv (Fin np_pi) (Fin 180))) (Fin 60) in
  Returned {| r_comoving := r_comoving;
              D_A := D_A;
              max_sep_arcmin := max_sep_arcmin;
              max_sep_radians := max_sep_radians;
              diameter := fmul (fmul (Fin 2) D_A) max_sep_radians |}.

(** ** Mass cell *)

Definition G_SI : R := 6.674e-11.
Definition M_sun : R := 1.989e30.

Record Mass : Type := mkMass {
  sigma_ms : float;
  R_meters : float;
  M_dyn : float;
  M_dyn_solar : float
}.

Definition mass_cell (disp diameter : float) : Mass :=
  let sigma_ms := fmul disp (Fin 1000) in
  let R_meters := fmul (fmul diameter (Fin 0.5)) (Fin 3.086e22) in
  let M_dyn := fdiv (fmul (fmul (Fin 3) (fsqr sigma_ms)) R_meters) (Fin G_SI) in
  {| sigma_ms := sigma_ms;
     R_meters := R_meters;
     M_dyn := M_dyn;
     M_dyn_solar := fdiv M_dyn (Fin M_sun) |}.

(** ** The computing cells, in the order of the notebook

    The plot cells that stand between them are not part of this composition:
    it says what the computing cells do when each is run after the one
    before, not that the whole notebook runs to its end. *)

Record Notebook : Type := mkNotebook {
  averaged_df : list row;
  limits : Limits;
  filtered_df : DataFrame;
  kinematics : Kinematics;
  geometry : Geometry;
  mass : Mass
}.

Definition computing_cells (df : list row) : outcome Notebook :=
  let averaged_df := aggregate_cell df in
  let lim := limits_cell averaged_df in
  f0 <- filter_cell averaged_df lim ;;
  f1 <- velocity_cell f0 ;;
  fk <- kinematics_cell f1 ;;
  geo <- geometry_cell (fst fk) (cluster_redshift (snd fk)) ;;
  Returned {| averaged_df := averaged_df;
              limits := lim;
              filtered_df := fst fk;
              kinematics := snd fk;
              geometry := geo;
              mass := mass_cell (disp (snd fk)) (diameter geo) |}.

(** ** The report of the filter cell *)

(** [len(filtered_df)] *)
Definition len (df : DataFrame) : nat := length (index df).

(** [len(averaged_df) - len(filtered_df)], a Python integer. *)
Definition removed (averaged_df : list row) (filtered_df : DataFrame) : Z :=
  (Z.of_nat (length averaged_df) - Z.of_nat (len filtered_df))%Z.

(** [100*(len(averaged_df) - len(filtered_df))/len(averaged_df)]: true
    division of two Python integers. *)
Definition removed_percent (averaged_df : list row) (filtered_df : DataFrame)
  : outcome R :=
  if (Z.of_nat (length averaged_df) =? 0)%Z then Raised ZeroDivisionError
  else Returned (IZR (100 * removed averaged_df filtered_df)
                 / IZR (Z.of_nat (length averaged_df))).

(** ** Sample tables *)

(** One object observed three times. *)
Definition repeat_catalogue : list row :=
  [ mkRow 7 10 20 1 5; mkRow 7 11 21 2 6; mkRow 7 12 22 3 7 ].

(** Eleven objects, the last one far from the other ten. *)
Definition outlier_table : list row :=
  [ mkRow 1 0 0 1 0; mkRow 2 0 0 1 0; mkRow 3 0 0 1 0; mkRow 4 0 0 1 0;
    mkRow 5 0 0 1 0; mkRow 6 0 0 3 0; mkRow 7 0 0 3 0; mkRow 8 0 0 3 0;
    mkRow 9 0 0 3 0; mkRow 10 0 0 3 0; mkRow 11 0 0 22 0 ].

(** Two objects of the same redshift. *)
Definition twin_table : list row :=
  [ mkRow 1 10 20 1 5; mkRow 2 11 21 1 6 ].

(** Two objects of redshift -1. *)
Definition void_table : list row :=
  [ mkRow 1 10 20 (-1) 5; mkRow 2 11 21 (-1) 6 ].

(** ** The formulas of the specification, over the reals *)

Module Spec.

(** Arithmetic mean. *)
Definition mean (l : list R) : R := Rsum l / INR (length l).

Definition sum_sq_dev (l : list R) : R :=
  Rsum (map (fun x => (x - mean l) * (x - mean l)) l).

(** Population standard deviation: divisor n. *)
Definition population_std (l : list R) : R :=
  sqrt (sum_sq_dev l / INR (length l)).

(** Sample standard deviation: divisor n - 1. *)
Definition sample_std (l : list R) : R :=
  sqrt (sum_sq_dev l / (INR (length l) - 1)).

(** v = c [(1+z)^2 - (1+z_cluster)^2] / [(1+z)^2 + (1+z_cluster)^2] *)
Definition velocity_offset (z z_cluster : R) : R :=
  c_light * ((1 + z) * (1 + z) - (1 + z_cluster) * (1 + z_cluster))
  / ((1 + z) * (1 + z) + (1 + z_cluster) * (1 + z_cluster)).

(** r = (c z_cluster / H0) (1 - (z_cluster / 2) (1 + q0)) *)
Definition comoving_distance (z_cluster : R) : R :=
  (c_light * z_cluster / H_0) * (1 - (z_cluster / 2) * (1 + q0)).

(** D_A = r / (1 + z_cluster) *)
Definition angular_diameter_distance (z_cluster : R) : R :=
  comoving_distance z_cluster / (1 + z_cluster).

Definition arcmin_to_radians (theta : R) : R := theta * (PI / 180) / 60.

(** The maximum of a column: one of its values, and none is larger. *)
Definition is_maximum (m : R) (l : list R) : Prop :=
  In m l /\ forall x, In x l -> x <= m.

(** M = 3 sigma^2 R / G, sigma in m/s, R in m; the result in solar masses. *)
Definition virial_mass_kg (sigma_kms diameter_mpc : R) : R :=
  3 * ((sigma_kms * 1000) * (sigma_kms * 1000))
    * ((diameter_mpc / 2) * 3.086e22) / 6.674e-11.

Definition virial_mass_solar (sigma_kms diameter_mpc : R) : R :=
  virial_mass_kg sigma_kms diameter_mpc / 1.989e30.

End Spec.

(** ** Basic facts about the float operations *)

Lemma Req_b_true (a b : R) : a = b -> Req_b a b = true.
Proof. intros H. unfold Req_b. destruct (Req_dec_T a b); [reflexivity | contradiction]. Qed.

Lemma Req_b_false (a b : R) : a <> b -> Req_b a b = false.
Proof. intros H. unfold Req_b. destruct (Req_dec_T a b); [contradiction | reflexivity]. Qed.

Lemma Rle_b_true (a b : R) : a <= b -> Rle_b a b = true.
Proof. intros H. unfold Rle_b. destruct (Rle_dec a b); [reflexivity | contradiction]. Qed.

Lemma Rle_b_false (a b : R) : b < a -> Rle_b a b = false.
Proof. intros H. unfold Rle_b. destruct (Rle_dec a b); [lra | reflexivity]. Qed.

Lemma Rle_b_iff (a b : R) : Rle_b a b = true <-> a <= b.
Proof.
  unfold Rle_b. destruct (Rle_dec a b); split; intros H; try assumption; try reflexivity.
  - discriminate.
  - contradiction.
Qed.

Lemma fdiv_fin (x y : R) : y <> 0 -> fdiv (Fin x) (Fin y) = Fin (x / y).
Proof. intros H. unfold fdiv. now rewrite Req_b_false. Qed.

Lemma fdiv_zero (x : R) : fdiv (Fin x) (Fin 0) = NaN.
Proof. unfold fdiv. now rewrite Req_b_true. Qed.

Lemma fsqrt_fin (x : R) : 0 <= x -> fsqrt (Fin x) = Fin (sqrt x).
Proof. intros H. unfold fsqrt. now rewrite Rle_b_true. Qed.

Lemma G_SI_neq_0 : G_SI <> 0.
Proof. unfold G_SI. lra. Qed.

Lemma M_sun_neq_0 : M_sun <> 0.
Proof. unfold M_sun. lra. Qed.

Lemma H_0_neq_0 : H_0 <> 0.
Proof. unfold H_0. lra. Qed.

(** ** The cells on small inputs *)

Example aggregate_cell_sample :
  aggregate_cell [ mkRow 7 1 2 1 4; mkRow 3 5 6 2 8; mkRow 7 9 9 3 9 ] =
  [ mkRow 3 5 6 (Rmean [2]) 8; mkRow 7 1 2 (Rmean [1; 3]) 4 ].
Proof. reflexivity. Qed.

Example columns_after_kinematics :
  forall zs v : list float,
    map fst (assign "v_dispersion" (Float64 v)
               (assign "velocity" (Float64 zs) (columns (to_frame [])))) =
    [ "objid"; "specz"; "ra"; "dec"; "proj_sep"; "velocity"; "v_dispersion" ]%string.
Proof. reflexivity. Qed.

(** ** Mass cell *)

Lemma mass_cell_fin (sigma d : R) :
  mass_cell (Fin sigma) (Fin d) =
  {| sigma_ms := Fin (sigma * 1000);
     R_meters := Fin (d * 0.5 * 3.086e22);
     M_dyn := Fin (3 * (sigma * 1000 * (sigma * 1000)) * (d * 0.5 * 3.086e22) / G_SI);
     M_dyn_solar :=
       Fin (3 * (sigma * 1000 * (sigma * 1000)) * (d * 0.5 * 3.086e22) / G_SI / M_sun) |}.
Proof.
  unfold mass_cell, fsqr. cbn [fmul].
  rewrite (fdiv_fin _ G_SI G_SI_neq_0), (fdiv_fin _ M_sun M_sun_neq_0).
  reflexivity.
Qed.

(** C5.  For a finite velocity dispersion (km/s) and diameter (Mpc) the mass
    cell computes sigma in m/s, R = diameter/2 in metres, the virial mass
    3 sigma^2 R / G in kg with G = 6.674e-11, and reports that mass divided by
    the solar mass 1.989e30 kg; a NaN input gives a NaN mass.  At
    sigma = 1000 km/s and diameter = 2 Mpc the reported value is the closed
    form 4629e18 / 6637293, about 6.974e14 solar masses. *)
Theorem mass_cell_is_virial_mass :
  (forall sigma d : R,
      sigma_ms (mass_cell (Fin sigma) (Fin d)) = Fin (sigma * 1000) /\
      R_meters (mass_cell (Fin sigma) (Fin d)) = Fin (d / 2 * 3.086e22) /\
      M_dyn (mass_cell (Fin sigma) (Fin d)) = Fin (Spec.virial_mass_kg sigma d) /\
      M_dyn_solar (mass_cell (Fin sigma) (Fin d)) =
        Fin (Spec.virial_mass_solar sigma d)) /\
  (forall x : float,
      M_dyn_solar (mass_cell NaN x) = NaN /\ M_dyn_solar (mass_cell x NaN) = NaN) /\
  M_dyn_solar (mass_cell (Fin 1000) (Fin 2)) = Fin (4629e18 / 6637293) /\
  6.974e14 < 4629e18 / 6637293 < 6.975e14.
Proof.
  assert (Hhalf : 0.5 = / 2) by lra.
  split; [| split; [| split]].
  - intros sigma d. rewrite mass_cell_fin.
    cbn [sigma_ms R_meters M_dyn M_dyn_solar].
    unfold Spec.virial_mass_solar, Spec.virial_mass_kg, G_SI, M_sun.
    rewrite Hhalf. repeat split; f_equal; field.
  - intros x. split.
    + reflexivity.
    + destruct x; reflexivity.
  - rewrite mass_cell_fin. cbn [M_dyn_solar]. unfold G_SI, M_sun.
    f_equal. lra.
  - lra.
Qed.

(** C7.  The mass is quadratic in the velocity dispersion and linear in the
    radius: doubling the dispersion leaves the radius as it is and multiplies
    the mass (in kg and in solar masses) by four; doubling the diameter
    doubles the radius and doubles the mass. *)
Theorem mass_cell_scaling :
  forall disp diameter : float,
    (R_meters (mass_cell (fmul (Fin 2) disp) diameter) =
       R_meters (mass_cell disp diameter) /\
     M_dyn (mass_cell (fmul (Fin 2) disp) diameter) =
       fmul (Fin 4) (M_dyn (mass_cell disp diameter)) /\
     M_dyn_solar (mass_cell (fmul (Fin 2) disp) diameter) =
       fmul (Fin 4) (M_dyn_solar (mass_cell disp diameter))) /\
    (sigma_ms (mass_cell disp (fmul (Fin 2) diameter)) =
       sigma_ms (mass_cell disp diameter) /\
     R_meters (mass_cell disp (fmul (Fin 2) diameter)) =
       fmul (Fin 2) (R_meters (mass_cell disp diameter)) /\
     M_dyn (mass_cell disp (fmul (Fin 2) diameter)) =
       fmul (Fin 2) (M_dyn (mass_cell disp diameter)) /\
     M_dyn_solar (mass_cell disp (fmul (Fin 2) diameter)) =
       fmul (Fin 2) (M_dyn_solar (mass_cell disp diameter))).
Proof.
  intros [sigma |] [d |].
  - cbn [fmul]. rewrite !mass_cell_fin.
    cbn [sigma_ms R_meters M_dyn M_dyn_solar fmul].
    repeat split; try reflexivity; f_equal; unfold G_SI, M_sun; field; lra.
  - repeat split; reflexivity.
  - unfold mass_cell. cbn [sigma_ms R_meters M_dyn M_dyn_solar fmul fsqr fdiv].
    repeat split; try reflexivity. f_equal. ring.
  - repeat split; reflexivity.
Qed.

(** ** Aggregation cell *)

Section Grouping.

Local Open Scope Z_scope.

Lemma add_to_groups_keys (r : row) (gs : list group) (k : Z) :
  In k (map key (add_to_groups r gs)) <-> k = objid r \/ In k (map key gs).
Proof.
  induction gs as [| g gs IH]; simpl.
  - intuition.
  - destruct (objid r <? key g) eqn:Hlt; simpl.
    + intuition.
    + destruct (objid r =? key g) eqn:Heq; simpl.
      * apply Z.eqb_eq in Heq. intuition congruence.
      * rewrite IH. intuition.
Qed.

Lemma add_to_groups_sorted (r : row) (gs : list group) :
  StronglySorted Z.lt (map key gs) ->
  StronglySorted Z.lt (map key (add_to_groups r gs)).
Proof.
  induction gs as [| g gs IH]; simpl; intros Hs.
  - repeat constructor.
  - inversion Hs as [| ? ? Hs' Hall]; subst.
    destruct (objid r <? key g) eqn:Hlt; simpl.
    + apply Z.ltb_lt in Hlt. constructor; [assumption |].
      constructor; [assumption |].
      rewrite Forall_forall in Hall |- *. intros k Hk.
      specialize (Hall k Hk). lia.
    + destruct (objid r =? key g) eqn:Heq; simpl.
      * assumption.
      * apply Z.ltb_ge in Hlt. apply Z.eqb_neq in Heq.
        constructor; [now apply IH |].
        rewrite Forall_forall in Hall |- *. intros k Hk.
        apply add_to_groups_keys in Hk. destruct Hk as [-> | Hk].
        -- lia.
        -- now apply Hall.
Qed.

(** What a group of the new list is: an old group with another key, the old
    group of that key with the row put last, or a new group of that row. *)
Lemma add_to_groups_members (r : row) (gs : list group) (g' : group) :
  StronglySorted Z.lt (map key gs) ->
  In g' (add_to_groups r gs) ->
  (key g' <> objid r /\ In g' gs) \/
  (key g' = objid r /\
   exists g, In g gs /\ key g = objid r /\ members g' = members g ++ [r]) \/
  (key g' = objid r /\ ~ In (objid r) (map key gs) /\ members g' = [r]).
Proof.
  induction gs as [| g gs IH]; simpl; intros Hs Hin.
  - destruct Hin as [<- | []]. right; right. simpl. intuition.
  - inversion Hs as [| ? ? Hs' Hall]; subst.
    rewrite Forall_forall in Hall.
    destruct (objid r <? key g) eqn:Hlt.
    + apply Z.ltb_lt in Hlt. destruct Hin as [<- | Hin].
      * right; right. simpl. repeat split; try reflexivity.
        intros [Hk | Hk]; [lia |]. specialize (Hall _ Hk). lia.
      * left. split; [| assumption].
        destruct Hin as [<- | Hin]; [lia |].
        specialize (Hall _ (in_map key _ _ Hin)). lia.
    + apply Z.ltb_ge in Hlt.
      destruct (objid r =? key g) eqn:Heq.
      * apply Z.eqb_eq in Heq. destruct Hin as [<- | Hin].
        -- right; left. simpl. split; [congruence |].
           exists g. repeat split; auto.
        -- left. split; [| now right].
           specialize (Hall _ (in_map key _ _ Hin)). lia.
      * apply Z.eqb_neq in Heq. destruct Hin as [<- | Hin].
        -- left. split; [congruence | now left].
        -- destruct (IH Hs' Hin) as [[Hne Hold] | [[He (g0 & Hg0 & Hk0 & Hm)] | (He & Hnot & Hm)]].
           ++ left. split; [assumption | now right].
           ++ right; left. split; [assumption |].
              exists g0. repeat split; auto.
           ++ right; right. repeat split; try assumption.
              intros [Hk | Hk]; [congruence | contradiction].
Qed.

Lemma sharing_none (k : Z) (pre : list row) :
  (forall r, In r pre -> objid r <> k) -> sharing k pre = [].
Proof.
  unfold sharing. induction pre as [| r pre IH]; simpl; intros H.
  - reflexivity.
  - destruct (objid r =? k) eqn:E.
    + apply Z.eqb_eq in E. exfalso. apply (H r); auto.
    + apply IH. intros r' Hr'. apply H. now right.
Qed.

Lemma grouped_step (pre : list row) (gs : list group) (r : row) :
  grouped pre gs -> grouped (pre ++ [r]) (add_to_groups r gs).
Proof.
  intros (Hs & Hm & Hc). split; [| split].
  - now apply add_to_groups_sorted.
  - intros g' Hin. unfold sharing. rewrite filter_app. simpl.
    destruct (add_to_groups_members r gs g' Hs Hin)
      as [[Hne Hold] | [[He (g0 & Hg0 & Hk0 & Hmem)] | (He & Hnot & Hmem)]].
    + apply Z.eqb_neq in Hne. rewrite Z.eqb_sym, Hne, app_nil_r.
      now apply Hm.
    + rewrite He, Z.eqb_refl, Hmem, (Hm g0 Hg0), Hk0. reflexivity.
    + rewrite He, Z.eqb_refl, Hmem.
      fold (sharing (objid r) pre). rewrite sharing_none; [reflexivity |].
      intros r' Hr' Heq. apply Hnot. rewrite <- Heq. now apply Hc.
  - intros r' Hr'. apply add_to_groups_keys.
    apply in_app_or in Hr'. destruct Hr' as [Hr' | [<- | []]].
    + right. now apply Hc.
    + now left.
Qed.

Lemma grouped_fold (df pre : list row) (gs : list group) :
  grouped pre gs ->
  grouped (pre ++ df) (fold_left (fun gs r => add_to_groups r gs) df gs).
Proof.
  revert pre gs. induction df as [| r df IH]; simpl; intros pre gs H.
  - now rewrite app_nil_r.
  - replace (pre ++ r :: df) with ((pre ++ [r]) ++ df)
      by (rewrite <- app_assoc; reflexivity).
    apply IH. now apply grouped_step.
Qed.

Lemma groupby_objid_grouped (df : list row) : grouped df (groupby_objid df).
Proof.
  unfold groupby_objid. apply (grouped_fold df [] []).
  split; [constructor | split]; simpl; intros ? [].
Qed.

Lemma StronglySorted_lt_NoDup (l : list Z) : StronglySorted Z.lt l -> NoDup l.
Proof.
  induction 1 as [| k l Hs IH Hall]; constructor; [| assumption].
  intros Hin. rewrite Forall_forall in Hall. specialize (Hall k Hin). lia.
Qed.

Lemma aggregate_cell_objids (df : list row) :
  map objid (aggregate_cell df) = map key (groupby_objid df).
Proof. unfold aggregate_cell. rewrite map_map. reflexivity. Qed.

(** C1.  The aggregation cell yields one row per identifier of the
    catalogue, in increasing order of the identifiers; the redshift of a row
    is the arithmetic mean of the redshifts of the catalogue rows with its
    identifier, and its right ascension, declination and projected
    separation are those of the first such row of the file. *)
Theorem aggregate_cell_one_row_per_objid :
  forall df : list row,
    NoDup (map objid (aggregate_cell df)) /\
    StronglySorted Z.lt (map objid (aggregate_cell df)) /\
    (forall k, In k (map objid (aggregate_cell df)) <-> In k (map objid df)) /\
    (forall a, In a (aggregate_cell df) ->
       exists r0 rest,
         sharing (objid a) df = r0 :: rest /\
         specz a = Spec.mean (map specz (r0 :: rest)) /\
         ra a = ra r0 /\ dec a = dec r0 /\ proj_sep a = proj_sep r0).
Proof.
  intros df. destruct (groupby_objid_grouped df) as (Hs & Hm & Hc).
  rewrite aggregate_cell_objids.
  split; [now apply StronglySorted_lt_NoDup | split; [assumption | split]].
  - intros k. split.
    + intros Hk. apply in_map_iff in Hk. destruct Hk as (g & <- & Hg).
      assert (Hin : In (first_row g) (sharing (key g) df)).
      { rewrite <- (Hm g Hg). now left. }
      apply filter_In in Hin. destruct Hin as [Hin Hkey].
      apply Z.eqb_eq in Hkey. rewrite <- Hkey. now apply in_map.
    + intros Hk. apply in_map_iff in Hk. destruct Hk as (r & <- & Hr).
      now apply Hc.
  - intros a Ha. unfold aggregate_cell in Ha. apply in_map_iff in Ha.
    destruct Ha as (g & <- & Hg).
    exists (first_row g), (later_rows g). simpl.
    fold (sharing (key g) df). rewrite <- (Hm g Hg).
    repeat split; reflexivity.
Qed.

End Grouping.

(** ** Reductions of a column without missing values *)

Lemma dropna_fin_map {A : Type} (f : A -> R) (l : list A) :
  dropna (map (fun a => Fin (f a)) l) = map f l.
Proof. induction l as [| a l IH]; simpl; [reflexivity | now rewrite IH]. Qed.

Lemma series_mean_fin {A : Type} (f : A -> R) (l : list A) :
  l <> [] -> series_mean (map (fun a => Fin (f a)) l) = Fin (Spec.mean (map f l)).
Proof.
  intros Hl. unfold series_mean. rewrite dropna_fin_map.
  destruct l as [| a l]; [contradiction | reflexivity].
Qed.

Lemma series_mean_empty : series_mean [] = NaN.
Proof. reflexivity. Qed.

Lemma series_std_short {A : Type} (f : A -> R) (l : list A) :
  (length l <= 1)%nat -> series_std (map (fun a => Fin (f a)) l) = NaN.
Proof.
  intros Hl. unfold series_std. rewrite dropna_fin_map, length_map.
  replace (length l - 1)%nat with 0%nat by lia. reflexivity.
Qed.

Lemma series_std_fin {A : Type} (f : A -> R) (l : list A) :
  (2 <= length l)%nat ->
  series_std (map (fun a => Fin (f a)) l) = Fin (Spec.sample_std (map f l)).
Proof.
  intros Hl. unfold series_std. rewrite dropna_fin_map, length_map.
  destruct (length l - 1 <=? 0)%nat eqn:E.
  - apply Nat.leb_le in E. lia.
  - unfold Spec.sample_std, Spec.sum_sq_dev, Spec.mean, Rmean.
    rewrite length_map, minus_INR by lia. simpl (INR 1).
    do 4 f_equal. apply map_ext. intros x. ring.
Qed.

(** ** Filter cell *)

Lemma retained_filter (lo hi : float) (l : list row) (labels : list nat) :
  boolean_index (mask_and (ge_scalar (specz_column l) lo)
                          (le_scalar (specz_column l) hi))
                (combine labels l) =
  filter (fun p => within lo hi (specz (snd p))) (combine labels l).
Proof.
  revert labels. induction l as [| r l IH]; intros [| i labels]; simpl;
    try reflexivity.
  unfold within at 1. rewrite IH. reflexivity.
Qed.

Lemma in_combine_seq {A : Type} (l : list A) (s i : nat) (a : A) :
  In (i, a) (combine (seq s (length l)) l) <->
  (s <= i)%nat /\ nth_error l (i - s) = Some a.
Proof.
  revert s. induction l as [| x l IH]; intros s; simpl.
  - split; [intros [] | intros [_ H]]. now destruct (i - s)%nat.
  - rewrite IH. split.
    + intros [H | [Hle H]].
      * inversion H; subst. rewrite Nat.sub_diag. auto.
      * split; [lia |]. replace (i - s)%nat with (S (i - S s)) by lia. exact H.
    + intros [Hle H]. destruct (i - s)%nat as [| k] eqn:E.
      * left. inversion H; subst. f_equal. lia.
      * right. split; [lia |]. replace (i - S s)%nat with k by lia. exact H.
Qed.

Lemma in_enumerate {A : Type} (l : list A) (i : nat) (a : A) :
  In (i, a) (enumerate l) <-> nth_error l i = Some a.
Proof.
  unfold enumerate. rewrite in_combine_seq, Nat.sub_0_r.
  split; [intros [_ H]; exact H | intros H; split; [lia | exact H]].
Qed.

Lemma in_retained (t : list row) (lim : Limits) (i : nat) (r : row) :
  In (i, r) (retained t lim) <->
  nth_error t i = Some r /\
  within (lower_limit lim) (upper_limit lim) (specz r) = true.
Proof.
  unfold retained, enumerate. rewrite retained_filter, filter_In.
  fold (enumerate t). rewrite in_enumerate. reflexivity.
Qed.

Lemma within_fin (lo hi z : R) :
  within (Fin lo) (Fin hi) z = true <-> lo <= z <= hi.
Proof.
  unfold within, fge, fle. rewrite andb_true_iff, !Rle_b_iff. reflexivity.
Qed.

Lemma filter_cell_returns (t : list row) (lim : Limits) :
  t <> [] -> filter_cell t lim = Returned (to_frame (retained t lim)).
Proof. intros Ht. destruct t; [contradiction | reflexivity]. Qed.

Lemma limits_cell_fin (t : list row) :
  (2 <= length t)%nat ->
  limits_cell t =
  {| mean_redshift := Fin (Spec.mean (map specz t));
     std_redshift := Fin (Spec.sample_std (map specz t));
     lower_limit :=
       Fin (Spec.mean (map specz t) - 3 * Spec.sample_std (map specz t));
     upper_limit :=
       Fin (Spec.mean (map specz t) + 3 * Spec.sample_std (map specz t)) |}.
Proof.
  intros Ht. unfold limits_cell, specz_column.
  rewrite series_mean_fin by (destruct t; simpl in *; [lia | discriminate]).
  rewrite series_std_fin by assumption. reflexivity.
Qed.

Example retained_sample :
  map fst (retained twin_table (mkLimits (Fin 1) (Fin 0) (Fin 1) (Fin 1))) =
  [0%nat; 1%nat].
Proof.
  unfold retained, enumerate. rewrite retained_filter.
  cbn [twin_table length seq combine filter snd specz lower_limit upper_limit].
  rewrite (proj2 (within_fin 1 1 1)) by lra. reflexivity.
Qed.

(** C2, as amended.  For an aggregated table of two rows or more, the limits
    cell computes the mean mu and the sample standard deviation s (divisor
    n - 1) of the redshifts, the filter cell returns, and it retains exactly
    the rows whose redshift lies in [mu - 3 s, mu + 3 s]; a rejected row lies
    strictly outside. *)
Theorem filter_cell_three_sigma :
  forall averaged_df : list row,
    (2 <= length averaged_df)%nat ->
    let mu := Spec.mean (map specz averaged_df) in
    let s := Spec.sample_std (map specz averaged_df) in
    let lim := limits_cell averaged_df in
    mean_redshift lim = Fin mu /\
    std_redshift lim = Fin s /\
    lower_limit lim = Fin (mu - 3 * s) /\
    upper_limit lim = Fin (mu + 3 * s) /\
    filter_cell averaged_df lim =
      Returned (to_frame (retained averaged_df lim)) /\
    (forall p, In p (retained averaged_df lim) ->
               nth_error averaged_df (fst p) = Some (snd p)) /\
    (forall i r, nth_error averaged_df i = Some r ->
       (In (i, r) (retained averaged_df lim) <->
        mu - 3 * s <= specz r <= mu + 3 * s) /\
       (~ In (i, r) (retained averaged_df lim) ->
        specz r < mu - 3 * s \/ mu + 3 * s < specz r)).
Proof.
  intros t Ht mu s lim. subst lim. rewrite (limits_cell_fin t Ht).
  cbn [mean_redshift std_redshift lower_limit upper_limit]. fold mu s.
  repeat (split; [reflexivity |]).
  split; [| split].
  - apply filter_cell_returns. destruct t; simpl in *; [lia | discriminate].
  - intros [i r] Hp. apply in_retained in Hp. apply Hp.
  - intros i r Hnth.
    assert (Hiff : In (i, r) (retained t (mkLimits (Fin mu) (Fin s)
                     (Fin (mu - 3 * s)) (Fin (mu + 3 * s)))) <->
                   mu - 3 * s <= specz r <= mu + 3 * s).
    { rewrite in_retained.
      cbn [lower_limit upper_limit]. rewrite within_fin. tauto. }
    split; [exact Hiff |].
    intros Hout. rewrite Hiff in Hout.
    destruct (Rlt_dec (specz r) (mu - 3 * s)); [now left |].
    destruct (Rlt_dec (mu + 3 * s) (specz r)); [now right |].
    exfalso. apply Hout. lra.
Qed.

(** ** The table with an outlier *)

Lemma outlier_mean : Spec.mean (map specz outlier_table) = 42 / 11.
Proof.
  unfold Spec.mean, outlier_table. cbn [map specz Rsum length].
  replace (INR 11) with 11 by (simpl; lra). lra.
Qed.

Lemma outlier_sum_sq_dev : Spec.sum_sq_dev (map specz outlier_table) = 4110 / 11.
Proof.
  unfold Spec.sum_sq_dev. rewrite outlier_mean.
  unfold outlier_table. cbn [map specz Rsum]. field.
Qed.

Lemma outlier_sample_std : 200 / 33 <= Spec.sample_std (map specz outlier_table).
Proof.
  unfold Spec.sample_std. rewrite outlier_sum_sq_dev.
  unfold outlier_table. cbn [map length].
  replace (INR 11) with 11 by (simpl; lra).
  rewrite <- (sqrt_square (200 / 33)) at 1 by lra.
  apply sqrt_le_1_alt. lra.
Qed.

Lemma outlier_population_std :
  Spec.population_std (map specz outlier_table) < 200 / 33.
Proof.
  unfold Spec.population_std. rewrite outlier_sum_sq_dev.
  unfold outlier_table. cbn [map length].
  replace (INR 11) with 11 by (simpl; lra).
  rewrite <- (sqrt_square (200 / 33)) by lra.
  apply sqrt_lt_1_alt. lra.
Qed.

(** C2, counterexample.  In the table of eleven objects the last one, of
    redshift 22, is retained although it lies above mu + 3 sigma for the
    population standard deviation sigma (divisor n). *)
Lemma filter_cell_population_std_counterexample :
  let t := outlier_table in
  let mu := Spec.mean (map specz t) in
  let sigma := Spec.population_std (map specz t) in
  ~ (forall i r, nth_error t i = Some r ->
       (In (i, r) (retained t (limits_cell t)) <->
        mu - 3 * sigma <= specz r <= mu + 3 * sigma)).
Proof.
  intros t mu sigma H.
  specialize (H 10%nat (mkRow 11 0 0 22 0) eq_refl).
  assert (Hin : In (10%nat, mkRow 11 0 0 22 0) (retained t (limits_cell t))).
  { apply in_retained. split; [reflexivity |].
    subst t. rewrite limits_cell_fin by (simpl; lia).
    cbn [lower_limit upper_limit specz]. apply within_fin.
    rewrite outlier_mean. pose proof outlier_sample_std. lra. }
  apply H in Hin. cbn [specz] in Hin. subst mu sigma t.
  rewrite outlier_mean in Hin. pose proof outlier_population_std. lra.
Qed.

Lemma filter_cell_three_sigma_witness :
  (2 <= length outlier_table)%nat /\
  upper_limit (limits_cell outlier_table) =
    Fin (Spec.mean (map specz outlier_table)
         + 3 * Spec.sample_std (map specz outlier_table)).
Proof.
  assert (H : (2 <= length outlier_table)%nat) by (simpl; lia).
  split; [exact H |].
  exact (proj1 (proj2 (proj2 (proj2 (filter_cell_three_sigma outlier_table H))))).
Defined.

(** ** One object, no object, equal redshifts *)

(** C10.  For an aggregated table of one object the standard deviation and
    both limits are NaN, both comparisons of the mask are false, the row is
    dropped, and the filter cell returns an empty table without raising. *)
Theorem filter_cell_single_row :
  forall r : row,
    let lim := limits_cell [r] in
    mean_redshift lim = Fin (specz r) /\
    std_redshift lim = NaN /\
    lower_limit lim = NaN /\
    upper_limit lim = NaN /\
    fge (Fin (specz r)) (lower_limit lim) = false /\
    fle (Fin (specz r)) (upper_limit lim) = false /\
    retained [r] lim = [] /\
    filter_cell [r] lim = Returned (to_frame []) /\
    index (to_frame []) = [].
Proof.
  intros r. cbv zeta.
  assert (Hm : mean_redshift (limits_cell [r]) = Fin (specz r)).
  { unfold limits_cell, series_mean, Rmean. cbn. f_equal. field. }
  assert (Hlo : lower_limit (limits_cell [r]) = NaN).
  { unfold limits_cell. cbn [lower_limit].
    unfold specz_column. rewrite (series_std_short specz [r]) by (simpl; lia).
    destruct (series_mean _); reflexivity. }
  assert (Hhi : upper_limit (limits_cell [r]) = NaN).
  { unfold limits_cell. cbn [upper_limit].
    unfold specz_column. rewrite (series_std_short specz [r]) by (simpl; lia).
    destruct (series_mean _); reflexivity. }
  assert (Hret : retained [r] (limits_cell [r]) = []).
  { unfold retained. rewrite Hlo, Hhi. reflexivity. }
  split; [exact Hm |]. split; [reflexivity |].
  split; [exact Hlo |]. split; [exact Hhi |].
  rewrite Hlo, Hhi. repeat split; reflexivity.
Qed.

Lemma Rsum_sq_nonneg (m : R) (l : list R) :
  0 <= Rsum (map (fun x => (x - m) * (x - m)) l).
Proof.
  induction l as [| x l IH]; simpl; [lra |].
  pose proof (Rle_0_sqr (x - m)) as Hx. unfold Rsqr in Hx. lra.
Qed.

Lemma Rsum_sq_zero (m : R) (l : list R) :
  Rsum (map (fun x => (x - m) * (x - m)) l) = 0 ->
  forall x, In x l -> x = m.
Proof.
  induction l as [| y l IH]; simpl; intros H x Hx; [contradiction |].
  pose proof (Rle_0_sqr (y - m)) as Hy. unfold Rsqr in Hy.
  pose proof (Rsum_sq_nonneg m l) as Hl.
  destruct Hx as [<- | Hx].
  - assert (Hz : (y - m) * (y - m) = 0) by lra.
    apply Rmult_integral in Hz. lra.
  - apply IH; [lra | assumption].
Qed.

Lemma zero_std_equal_redshifts (t : list row) :
  std_redshift (limits_cell t) = Fin 0 ->
  (2 <= length t)%nat /\
  forall r, In r t -> specz r = Spec.mean (map specz t).
Proof.
  intros H. destruct (le_lt_dec (length t) 1) as [Hshort | Hlong].
  - unfold limits_cell, specz_column in H. cbn [std_redshift] in H.
    rewrite series_std_short in H by assumption. discriminate.
  - split; [lia |]. rewrite limits_cell_fin in H by lia.
    cbn [std_redshift] in H. injection H as H.
    unfold Spec.sample_std in H.
    assert (Hn : 0 < INR (length (map specz t)) - 1).
    { rewrite length_map. apply lt_INR in Hlong. simpl in Hlong. lra. }
    pose proof (Rsum_sq_nonneg (Spec.mean (map specz t)) (map specz t)) as Hs.
    fold (Spec.sum_sq_dev (map specz t)) in Hs.
    apply sqrt_eq_0 in H.
    + assert (Hz : Spec.sum_sq_dev (map specz t) = 0).
      { unfold Rdiv in H. apply Rmult_integral in H. destruct H as [H | H].
        - exact H.
        - exfalso. apply (Rinv_neq_0_compat _ (Rgt_not_eq _ _ Hn)). exact H. }
      intros r Hr. apply (Rsum_sq_zero _ _ Hz). now apply in_map.
    + apply Rmult_le_pos; [exact Hs |]. left. now apply Rinv_0_lt_compat.
Qed.

Lemma filter_all {A : Type} (f : A -> bool) (l : list A) :
  (forall a, In a l -> f a = true) -> filter f l = l.
Proof.
  induction l as [| a l IH]; simpl; intros H; [reflexivity |].
  rewrite (H a) by now left. f_equal. apply IH. intros b Hb. apply H. now right.
Qed.

Lemma Fin_inj (a b : R) : Fin a = Fin b -> a = b.
Proof. intros H. now injection H. Qed.

Lemma zero_std_limits (t : list row) :
  std_redshift (limits_cell t) = Fin 0 ->
  limits_cell t =
  {| mean_redshift := Fin (Spec.mean (map specz t));
     std_redshift := Fin 0;
     lower_limit := Fin (Spec.mean (map specz t) - 3 * 0);
     upper_limit := Fin (Spec.mean (map specz t) + 3 * 0) |}.
Proof.
  intros Hstd. destruct (zero_std_equal_redshifts t Hstd) as [Hlen _].
  revert Hstd. rewrite limits_cell_fin by exact Hlen. cbn [std_redshift].
  intros Hstd. apply Fin_inj in Hstd. rewrite Hstd. reflexivity.
Qed.

(** In exact arithmetic a standard deviation of 0 means that every redshift
    equals the mean; used below at tables whose mean is computed exactly. *)
Lemma zero_std_retains_all (t : list row) :
  std_redshift (limits_cell t) = Fin 0 ->
  retained t (limits_cell t) = enumerate t.
Proof.
  intros Hstd. destruct (zero_std_equal_redshifts t Hstd) as [_ Heq].
  rewrite (zero_std_limits t Hstd).
  unfold retained, enumerate. rewrite retained_filter.
  apply filter_all. intros [i r] Hin. cbn [snd lower_limit upper_limit].
  assert (Hr : In r t) by (apply in_combine_r in Hin; exact Hin).
  rewrite (Heq r Hr). apply within_fin. lra.
Qed.

Lemma twin_table_std : std_redshift (limits_cell twin_table) = Fin 0.
Proof.
  rewrite limits_cell_fin by (simpl; lia). cbn [std_redshift].
  unfold Spec.sample_std, Spec.sum_sq_dev, Spec.mean, twin_table.
  cbn [map specz Rsum length]. f_equal.
  replace (INR 2) with 2 by (simpl; lra).
  replace (_ / (2 - 1)) with 0 by field. apply sqrt_0.
Qed.

(** C8, counterexample.  The two objects of the twin table have the same
    redshift, the standard deviation is 0, and the filter cell returns the
    table of both objects: it does not raise. *)
Lemma filter_cell_zero_std_counterexample :
  std_redshift (limits_cell twin_table) = Fin 0 /\
  filter_cell twin_table (limits_cell twin_table) =
    Returned (to_frame (enumerate twin_table)) /\
  forall e, filter_cell twin_table (limits_cell twin_table) <> Raised e.
Proof.
  assert (Hret : filter_cell twin_table (limits_cell twin_table) =
                 Returned (to_frame (enumerate twin_table))).
  { rewrite filter_cell_returns by discriminate.
    now rewrite (zero_std_retains_all _ twin_table_std). }
  split; [exact twin_table_std | split; [exact Hret |]].
  intros e. rewrite Hret. discriminate.
Qed.

(** C8, as amended.  When the standard deviation of the aggregated redshifts
    is 0, the filter cell raises no error: the mean is a number, both limits
    equal it, and the cell returns the filtered table.  For the empty table
    the mean, the standard deviation and both limits are NaN, nothing is
    retained, and the cell raises ZeroDivisionError at its report of the
    removed share. *)
Theorem filter_cell_degenerate :
  (forall t : list row,
      std_redshift (limits_cell t) = Fin 0 ->
      (exists mu, mean_redshift (limits_cell t) = Fin mu) /\
      lower_limit (limits_cell t) = mean_redshift (limits_cell t) /\
      upper_limit (limits_cell t) = mean_redshift (limits_cell t) /\
      filter_cell t (limits_cell t) =
        Returned (to_frame (retained t (limits_cell t))) /\
      (forall e, filter_cell t (limits_cell t) <> Raised e)) /\
  (mean_redshift (limits_cell []) = NaN /\
   std_redshift (limits_cell []) = NaN /\
   lower_limit (limits_cell []) = NaN /\
   upper_limit (limits_cell []) = NaN /\
   retained [] (limits_cell []) = [] /\
   filter_cell [] (limits_cell []) = Raised ZeroDivisionError).
Proof.
  split; [| repeat split; reflexivity].
  intros t Hstd.
  destruct (zero_std_equal_redshifts t Hstd) as [Hlen _].
  assert (Hret : filter_cell t (limits_cell t) =
                 Returned (to_frame (retained t (limits_cell t)))).
  { apply filter_cell_returns. destruct t; simpl in *; [lia | discriminate]. }
  rewrite Hret. rewrite (zero_std_limits t Hstd).
  cbn [lower_limit upper_limit mean_redshift].
  split; [eexists; reflexivity |].
  split; [f_equal; ring |]. split; [f_equal; ring |].
  split; [reflexivity | discriminate].
Qed.

Lemma filter_cell_degenerate_witness :
  std_redshift (limits_cell twin_table) = Fin 0 /\
  lower_limit (limits_cell twin_table) = mean_redshift (limits_cell twin_table) /\
  upper_limit (limits_cell twin_table) = mean_redshift (limits_cell twin_table).
Proof.
  split; [exact twin_table_std |].
  destruct (proj1 filter_cell_degenerate twin_table twin_table_std)
    as (_ & Hlo & Hhi & _).
  split; assumption.
Defined.

(** ** Columns of a data frame *)

Lemma lookup_assign_same (name : string) (s : Series) (cols : list (string * Series)) :
  lookup name (assign name s cols) = Some s.
Proof.
  induction cols as [| [n c] cols IH]; simpl.
  - now rewrite String.eqb_refl.
  - destruct (String.eqb n name) eqn:E; simpl.
    + now rewrite String.eqb_refl.
    + now rewrite E.
Qed.

Lemma lookup_assign_other (name name' : string) (s : Series)
      (cols : list (string * Series)) :
  name' <> name -> lookup name' (assign name s cols) = lookup name' cols.
Proof.
  intros Hne. induction cols as [| [n c] cols IH]; simpl.
  - apply String.eqb_neq in Hne. rewrite String.eqb_sym. now rewrite Hne.
  - destruct (String.eqb n name) eqn:E; simpl.
    + apply String.eqb_eq in E. subst n.
      apply String.eqb_neq in Hne. rewrite String.eqb_sym in Hne.
      now rewrite Hne.
    + now rewrite IH.
Qed.

Lemma assign_fresh (name : string) (s : Series) (cols : list (string * Series)) :
  lookup name cols = None -> assign name s cols = cols ++ [(name, s)].
Proof.
  induction cols as [| [n c] cols IH]; simpl; intros H; [reflexivity |].
  destruct (String.eqb n name); [discriminate |]. now rewrite IH.
Qed.

Lemma setitem_returns (name : string) (s : Series) (df : DataFrame) :
  series_len s = length (index df) ->
  setitem name s df = Returned (mkDF (index df) (assign name s (columns df))).
Proof. intros H. unfold setitem. now rewrite H, Nat.eqb_refl. Qed.

Lemma getitem_returns (name : string) (s : Series) (df : DataFrame) :
  lookup name (columns df) = Some s -> getitem name df = Returned s.
Proof. intros H. unfold getitem. now rewrite H. Qed.

(** ** numpy reductions of an array of finite numbers *)

Lemma fsum_fin (l : list R) : fsum (map Fin l) = Fin (Rsum l).
Proof. induction l as [| x l IH]; simpl; [reflexivity | now rewrite IH]. Qed.

Lemma INR_length_neq_0 {A : Type} (l : list A) : l <> [] -> INR (length l) <> 0.
Proof.
  intros Hl. destruct l as [| a l]; [contradiction |].
  apply not_0_INR. simpl. lia.
Qed.

Lemma np_std_fin (l : list R) :
  l <> [] -> np_std (map Fin l) = Fin (Spec.population_std l).
Proof.
  intros Hl. pose proof (INR_length_neq_0 l Hl) as Hn.
  unfold np_std, np_mean. rewrite fsum_fin, length_map, (fdiv_fin _ _ Hn).
  rewrite !map_map. cbn [fsub fmul].
  rewrite <- (map_map (fun x => (x - Rsum l / INR (length l))
                                * (x - Rsum l / INR (length l))) Fin).
  rewrite fsum_fin, (fdiv_fin _ _ Hn).
  rewrite fsqrt_fin; [reflexivity |].
  apply Rmult_le_pos; [apply Rsum_sq_nonneg |].
  left. apply Rinv_0_lt_compat.
  destruct l; [contradiction |]. apply lt_0_INR. simpl. lia.
Qed.

(** ** Kinematics cell *)

Lemma doppler_fin (z zc : R) :
  (1 + z) * (1 + z) + (1 + zc) * (1 + zc) <> 0 ->
  doppler (Fin z) (Fin zc) = Fin (Spec.velocity_offset z zc).
Proof.
  intros H. unfold doppler, fsqr. cbn [fadd fsub fmul].
  now rewrite (fdiv_fin _ _ H).
Qed.

Lemma doppler_zero_over_zero (z zc : R) :
  1 + z = 0 -> 1 + zc = 0 -> doppler (Fin z) (Fin zc) = NaN.
Proof.
  intros Hz Hzc. unfold doppler, fsqr. cbn [fadd fsub fmul].
  unfold fdiv. rewrite Req_b_true; [reflexivity |]. rewrite Hz, Hzc. ring.
Qed.

Lemma series_mean_fin_list (zs : list R) :
  zs <> [] -> series_mean (map Fin zs) = Fin (Spec.mean zs).
Proof.
  intros H.
  assert (Hd : dropna (map Fin zs) = zs).
  { clear H. induction zs as [| z zs IH]; simpl; [reflexivity | now rewrite IH]. }
  unfold series_mean. rewrite Hd. destruct zs; [contradiction | reflexivity].
Qed.

Lemma kinematics_cell_returns (f : DataFrame) (zs : list R) :
  lookup "specz" (columns f) = Some (Float64 (map Fin zs)) ->
  length (index f) = length zs ->
  let zc := series_mean (map Fin zs) in
  let v := map (fun zi => doppler zi zc) (map Fin zs) in
  kinematics_cell f =
  Returned (mkDF (index f) (assign "v_dispersion" (Float64 v) (columns f)),
            mkKinematics zc v (np_std v)).
Proof.
  intros Hz Hlen zc v. unfold kinematics_cell.
  rewrite (getitem_returns _ _ _ Hz). cbn [bind values]. fold zc. fold v.
  rewrite setitem_returns; [reflexivity |].
  subst v. cbn [series_len]. now rewrite !length_map.
Qed.

Lemma map_doppler_fin (zs : list R) (zc : R) :
  Forall (fun z => (1 + z) * (1 + z) + (1 + zc) * (1 + zc) <> 0) zs ->
  map (fun zi => doppler zi (Fin zc)) (map Fin zs) =
  map Fin (map (fun z => Spec.velocity_offset z zc) zs).
Proof.
  induction 1 as [| z zs Hz _ IH]; simpl; [reflexivity |].
  now rewrite (doppler_fin z zc Hz), IH.
Qed.

(** C3.  For a filtered table with at least one object, z_cluster is the
    mean of its redshifts; where the denominators do not vanish, the velocity
    offset of each object is c ((1+z)^2 - (1+z_cluster)^2) /
    ((1+z)^2 + (1+z_cluster)^2), these offsets are stored as the column
    v_dispersion, and the dispersion is their population standard deviation
    (divisor n). *)
Theorem kinematics_cell_offsets_and_dispersion :
  forall (f : DataFrame) (zs : list R),
    lookup "specz" (columns f) = Some (Float64 (map Fin zs)) ->
    length (index f) = length zs ->
    zs <> [] ->
    let zc := Spec.mean zs in
    Forall (fun z => (1 + z) * (1 + z) + (1 + zc) * (1 + zc) <> 0) zs ->
    exists f' k,
      kinematics_cell f = Returned (f', k) /\
      cluster_redshift k = Fin zc /\
      v_dispersion k = map (fun z => Fin (Spec.velocity_offset z zc)) zs /\
      lookup "v_dispersion" (columns f') = Some (Float64 (v_dispersion k)) /\
      disp k =
        Fin (Spec.population_std (map (fun z => Spec.velocity_offset z zc) zs)).
Proof.
  intros f zs Hz Hlen Hne zc Hden.
  rewrite (kinematics_cell_returns f zs Hz Hlen).
  rewrite (series_mean_fin_list zs Hne). fold zc.
  rewrite (map_doppler_fin zs zc Hden).
  eexists. eexists. split; [reflexivity |].
  cbn [cluster_redshift v_dispersion disp columns].
  split; [reflexivity |]. split; [now rewrite map_map |].
  split; [apply lookup_assign_same |].
  apply np_std_fin. destruct zs; [contradiction | discriminate].
Qed.

Lemma twin_frame_specz :
  lookup "specz" (columns (to_frame (enumerate twin_table))) =
  Some (Float64 (map Fin [1; 1])).
Proof. reflexivity. Qed.

Lemma twin_mean : 1 = Spec.mean [1; 1].
Proof. unfold Spec.mean. cbn [Rsum length]. replace (INR 2) with 2 by (simpl; lra). lra. Qed.

Lemma kinematics_cell_offsets_and_dispersion_witness :
  exists f' k,
    kinematics_cell (to_frame (enumerate twin_table)) = Returned (f', k) /\
    cluster_redshift k = Fin (Spec.mean [1; 1]) /\
    v_dispersion k =
      map (fun z => Fin (Spec.velocity_offset z (Spec.mean [1; 1]))) [1; 1] /\
    lookup "v_dispersion" (columns f') = Some (Float64 (v_dispersion k)) /\
    disp k =
      Fin (Spec.population_std
             (map (fun z => Spec.velocity_offset z (Spec.mean [1; 1])) [1; 1])).
Proof.
  apply (kinematics_cell_offsets_and_dispersion
           (to_frame (enumerate twin_table)) [1; 1]).
  - exact twin_frame_specz.
  - reflexivity.
  - discriminate.
  - rewrite <- twin_mean. repeat constructor; lra.
Defined.

(** ** The filtered table through the velocity and kinematics cells *)

Lemma to_frame_specz (rows : list (nat * row)) :
  lookup "specz" (columns (to_frame rows)) =
  Some (Float64 (map Fin (map (fun p => specz (snd p)) rows))).
Proof. cbn [to_frame columns lookup]. now rewrite map_map. Qed.

Lemma to_frame_proj_sep (rows : list (nat * row)) :
  lookup "proj_sep" (columns (to_frame rows)) =
  Some (Float64 (map Fin (map (fun p => proj_sep (snd p)) rows))).
Proof. cbn [to_frame columns lookup]. now rewrite map_map. Qed.

Lemma to_frame_cells (rows : list (nat * row)) (i label : nat) (r : row) :
  nth_error rows i = Some (label, r) ->
  nth_error (index (to_frame rows)) i = Some label /\
  cell "objid" i (to_frame rows) = Some (Fin (IZR (objid r))) /\
  cell "specz" i (to_frame rows) = Some (Fin (specz r)) /\
  cell "ra" i (to_frame rows) = Some (Fin (ra r)) /\
  cell "dec" i (to_frame rows) = Some (Fin (dec r)) /\
  cell "proj_sep" i (to_frame rows) = Some (Fin (proj_sep r)).
Proof.
  intros H. unfold cell. simpl. rewrite map_map.
  repeat split;
    match goal with
    | |- nth_error (map ?g rows) i = _ => apply (map_nth_error g _ _ H)
    end.
Qed.

Lemma velocity_cell_returns (f : DataFrame) (zs : list R) :
  lookup "specz" (columns f) = Some (Float64 (map Fin zs)) ->
  length (index f) = length zs ->
  velocity_cell f =
  Returned (mkDF (index f)
              (assign "velocity"
                 (Float64 (map (fun v => fmul (Fin c_light) v) (map Fin zs)))
                 (columns f))).
Proof.
  intros Hz Hlen. unfold velocity_cell.
  rewrite (getitem_returns _ _ _ Hz). cbn [bind values].
  rewrite setitem_returns; [reflexivity |].
  cbn [series_len]. now rewrite !length_map.
Qed.

Lemma lookup_app_some (name : string) (s : Series)
      (cols extra : list (string * Series)) :
  lookup name cols = Some s -> lookup name (cols ++ extra) = Some s.
Proof.
  induction cols as [| [n c] cols IH]; simpl; intros H; [discriminate |].
  destruct (String.eqb n name); [assumption | now apply IH].
Qed.

(** The two frames that follow the filtered table [to_frame rows]. *)
Lemma kinematics_stage_frames (rows : list (nat * row)) :
  let f0 := to_frame rows in
  let zs := map (fun p => specz (snd p)) rows in
  let zc := series_mean (map Fin zs) in
  let v := map (fun zi => doppler zi zc) (map Fin zs) in
  let velocity := Float64 (map (fun z => fmul (Fin c_light) z) (map Fin zs)) in
  let f1 := mkDF (index f0) (columns f0 ++ [("velocity"%string, velocity)]) in
  let f2 := mkDF (index f0) (columns f1 ++ [("v_dispersion"%string, Float64 v)]) in
  velocity_cell f0 = Returned f1 /\
  kinematics_cell f1 = Returned (f2, mkKinematics zc v (np_std v)).
Proof.
  intros f0 zs zc v velocity f1 f2.
  assert (Hlen : length (index f0) = length zs).
  { subst f0 zs. cbn [to_frame index]. now rewrite !length_map. }
  split.
  - rewrite (velocity_cell_returns f0 zs (to_frame_specz rows) Hlen).
    rewrite assign_fresh by reflexivity. reflexivity.
  - assert (Hz : lookup "specz" (columns f1) = Some (Float64 (map Fin zs))).
    { subst f1. cbn [columns]. apply lookup_app_some. apply to_frame_specz. }
    rewrite (kinematics_cell_returns f1 zs Hz Hlen).
    rewrite assign_fresh by reflexivity. reflexivity.
Qed.

Lemma retained_rows (t : list row) (lim : Limits) (i label : nat) :
  nth_error (map fst (retained t lim)) i = Some label ->
  exists r, nth_error (retained t lim) i = Some (label, r) /\
            nth_error t label = Some r.
Proof.
  intros H. rewrite nth_error_map in H.
  destruct (nth_error (retained t lim) i) as [[l r] |] eqn:E; [| discriminate].
  injection H as <-. exists r. split; [reflexivity |].
  apply nth_error_In in E. apply in_retained in E. apply E.
Qed.

(** C9.  Once the filter cell has returned the filtered table, the velocity
    and kinematics cells return, keep its row labels, keep every column it
    had with the same values, and put the columns velocity and v_dispersion
    after them; each row still holds the identifier, redshift, position and
    separation of the aggregated row of its label.  The geometry and mass
    cells only read the table. *)
Theorem kinematics_only_appends_columns :
  forall (averaged_df : list row) (lim : Limits) (f0 : DataFrame),
    filter_cell averaged_df lim = Returned f0 ->
    exists f1 f2 k,
      velocity_cell f0 = Returned f1 /\
      kinematics_cell f1 = Returned (f2, k) /\
      index f1 = index f0 /\
      index f2 = index f0 /\
      map fst (columns f2) =
        map fst (columns f0) ++ ["velocity"%string; "v_dispersion"%string] /\
      (forall name s,
          lookup name (columns f0) = Some s ->
          lookup name (columns f1) = Some s /\
          lookup name (columns f2) = Some s) /\
      (forall i label,
          nth_error (index f2) i = Some label ->
          exists r,
            nth_error averaged_df label = Some r /\
            cell "objid" i f2 = Some (Fin (IZR (objid r))) /\
            cell "specz" i f2 = Some (Fin (specz r)) /\
            cell "ra" i f2 = Some (Fin (ra r)) /\
            cell "dec" i f2 = Some (Fin (dec r)) /\
            cell "proj_sep" i f2 = Some (Fin (proj_sep r))).
Proof.
  intros t lim f0 Hf.
  assert (Hf0 : f0 = to_frame (retained t lim)).
  { unfold filter_cell in Hf. destruct (length t =? 0)%nat; [discriminate |].
    now injection Hf. }
  subst f0. clear Hf.
  destruct (kinematics_stage_frames (retained t lim)) as [Hv Hk].
  eexists. eexists. eexists.
  split; [exact Hv |]. split; [exact Hk |].
  cbn [index columns]. split; [reflexivity |]. split; [reflexivity |].
  split; [| split].
  - rewrite <- app_assoc, map_app. reflexivity.
  - intros name s Hs. split.
    + now apply lookup_app_some.
    + now apply lookup_app_some, lookup_app_some.
  - intros i label Hi. cbn [to_frame index] in Hi.
    destruct (retained_rows t lim i label Hi) as (r & Hrow & Hagg).
    exists r. split; [exact Hagg |].
    destruct (to_frame_cells _ _ _ _ Hrow) as (_ & Ho & Hz & Hra & Hdec & Hp).
    unfold cell in *. cbn [columns].
    repeat split;
      match goal with
      | H : match lookup ?n _ with _ => _ end = Some ?x
        |- match lookup ?n _ with _ => _ end = Some ?x =>
          destruct (lookup n (columns (to_frame (retained t lim)))) as [s0 |] eqn:E;
          [ rewrite (lookup_app_some n s0 _ _ (lookup_app_some n s0 _ _ E)); exact H
          | discriminate ]
      end.
Qed.

Lemma kinematics_only_appends_columns_witness :
  exists f1 f2 k,
    velocity_cell (to_frame (retained twin_table (limits_cell twin_table))) =
      Returned f1 /\
    kinematics_cell f1 = Returned (f2, k) /\
    map fst (columns f2) =
      [ "objid"; "specz"; "ra"; "dec"; "proj_sep"; "velocity"; "v_dispersion" ]%string.
Proof.
  destruct (kinematics_only_appends_columns
              twin_table (limits_cell twin_table)
              (to_frame (retained twin_table (limits_cell twin_table)))
              eq_refl)
    as (f1 & f2 & k & Hv & Hk & _ & _ & Hcols & _).
  exists f1, f2, k. repeat split; assumption.
Defined.

(** C6, as amended.  An object of the filtered table whose redshift z equals
    the cluster redshift has velocity offset 0, provided z is not -1. *)
Theorem doppler_zero_at_cluster_redshift :
  forall (f : DataFrame) (zs : list R) (i : nat) (z : R),
    lookup "specz" (columns f) = Some (Float64 (map Fin zs)) ->
    length (index f) = length zs ->
    nth_error zs i = Some z ->
    z = Spec.mean zs ->
    1 + z <> 0 ->
    exists f' k,
      kinematics_cell f = Returned (f', k) /\
      cluster_redshift k = Fin z /\
      nth_error (v_dispersion k) i = Some (Fin 0) /\
      cell "v_dispersion" i f' = Some (Fin 0).
Proof.
  intros f zs i z Hz Hlen Hi Hmean Hne.
  assert (Hzs : zs <> []) by (intros ->; destruct i; discriminate).
  rewrite (kinematics_cell_returns f zs Hz Hlen).
  rewrite (series_mean_fin_list zs Hzs), <- Hmean.
  assert (Hv : nth_error (map (fun zi => doppler zi (Fin z)) (map Fin zs)) i =
               Some (Fin 0)).
  { rewrite (map_nth_error _ _ _ (map_nth_error Fin _ _ Hi)).
    rewrite doppler_fin by nra. do 2 f_equal.
    unfold Spec.velocity_offset.
    replace ((1 + z) * (1 + z) - (1 + z) * (1 + z)) with 0 by ring.
    unfold Rdiv. ring. }
  eexists. eexists. split; [reflexivity |].
  cbn [cluster_redshift v_dispersion].
  split; [reflexivity |]. split; [exact Hv |].
  unfold cell. cbn [columns]. rewrite lookup_assign_same. exact Hv.
Qed.

Lemma doppler_zero_at_cluster_redshift_witness :
  exists f' k,
    kinematics_cell (to_frame (enumerate twin_table)) = Returned (f', k) /\
    cluster_redshift k = Fin 1 /\
    nth_error (v_dispersion k) 0 = Some (Fin 0) /\
    cell "v_dispersion" 0 f' = Some (Fin 0).
Proof.
  apply (doppler_zero_at_cluster_redshift
           (to_frame (enumerate twin_table)) [1; 1] 0%nat 1).
  - exact twin_frame_specz.
  - reflexivity.
  - reflexivity.
  - exact twin_mean.
  - lra.
Defined.

Lemma void_table_std : std_redshift (limits_cell void_table) = Fin 0.
Proof.
  rewrite limits_cell_fin by (simpl; lia). cbn [std_redshift].
  unfold Spec.sample_std, Spec.sum_sq_dev, Spec.mean, void_table.
  cbn [map specz Rsum length]. f_equal.
  replace (INR 2) with 2 by (simpl; lra).
  replace (_ / (2 - 1)) with 0 by field. apply sqrt_0.
Qed.

Lemma void_mean : Spec.mean [-1; -1] = -1.
Proof. unfold Spec.mean. cbn [Rsum length]. replace (INR 2) with 2 by (simpl; lra). lra. Qed.

(** C6, counterexample.  Both objects of the void table have redshift -1,
    both are retained, the cluster redshift is -1, and the velocity offset of
    the first object is 0/0 = NaN, not 0. *)
Lemma doppler_nan_counterexample :
  exists f0 f1 f2 k,
    filter_cell void_table (limits_cell void_table) = Returned f0 /\
    velocity_cell f0 = Returned f1 /\
    kinematics_cell f1 = Returned (f2, k) /\
    cell "specz" 0 f2 = Some (Fin (-1)) /\
    cluster_redshift k = Fin (-1) /\
    nth_error (v_dispersion k) 0 = Some NaN /\
    nth_error (v_dispersion k) 0 <> Some (Fin 0).
Proof.
  destruct (kinematics_stage_frames (enumerate void_table)) as [Hv Hk].
  eexists. eexists. eexists. eexists.
  split.
  { rewrite filter_cell_returns by discriminate.
    rewrite (zero_std_retains_all _ void_table_std). reflexivity. }
  split; [exact Hv |]. split; [exact Hk |].
  change (map (fun p => specz (snd p)) (enumerate void_table)) with [-1; -1].
  cbn [cluster_redshift v_dispersion].
  rewrite (series_mean_fin_list [-1; -1]) by discriminate.
  rewrite void_mean. cbn [map nth_error].
  rewrite (doppler_zero_over_zero (-1) (-1)) by lra.
  repeat split; try reflexivity. discriminate.
Qed.

(** ** Geometry cell *)

Lemma fold_left_Rmax_bound (t : list R) (x : R) :
  x <= fold_left Rmax t x /\ forall y, In y t -> y <= fold_left Rmax t x.
Proof.
  revert x. induction t as [| a t IH]; intros x; simpl.
  - split; [lra | intros y []].
  - destruct (IH (Rmax x a)) as [H1 H2].
    pose proof (Rmax_l x a). pose proof (Rmax_r x a).
    split; [lra |]. intros y [<- | Hy]; [lra | now apply H2].
Qed.

Lemma fold_left_Rmax_in (t : list R) (x : R) :
  In (fold_left Rmax t x) (x :: t).
Proof.
  revert x. induction t as [| a t IH]; intros x; simpl.
  - now left.
  - destruct (IH (Rmax x a)) as [H | H].
    + rewrite <- H. unfold Rmax. destruct (Rle_dec x a); auto.
    + right. now right.
Qed.

Lemma series_max_fin (l : list R) :
  l <> [] -> exists m, series_max (map Fin l) = Fin m /\ Spec.is_maximum m l.
Proof.
  intros Hl. destruct l as [| x t]; [contradiction |].
  exists (fold_left Rmax t x). split.
  - unfold series_max. cbn [map dropna].
    assert (Hd : dropna (map Fin t) = t).
    { clear. induction t as [| z t IH]; simpl; [reflexivity | now rewrite IH]. }
    now rewrite Hd.
  - split; [apply fold_left_Rmax_in |].
    destruct (fold_left_Rmax_bound t x) as [H1 H2].
    intros y [<- | Hy]; [exact H1 | now apply H2].
Qed.

Lemma geometry_cell_fin (f : DataFrame) (seps : list R) (zc m : R) :
  lookup "proj_sep" (columns f) = Some (Float64 (map Fin seps)) ->
  series_max (map Fin seps) = Fin m ->
  1 + zc <> 0 ->
  geometry_cell f (Fin zc) =
  Returned
    {| r_comoving := Fin (Spec.comoving_distance zc);
       D_A := Fin (Spec.angular_diameter_distance zc);
       max_sep_arcmin := Fin m;
       max_sep_radians := Fin (Spec.arcmin_to_radians m);
       diameter :=
         Fin (2 * Spec.angular_diameter_distance zc * Spec.arcmin_to_radians m) |}.
Proof.
  intros Hp Hm Hz. unfold geometry_cell.
  rewrite (getitem_returns _ _ _ Hp). cbn [bind values]. rewrite Hm.
  cbn [fadd fsub fmul].
  rewrite (fdiv_fin _ H_0 H_0_neq_0).
  rewrite (fdiv_fin zc 2) by lra.
  rewrite (fdiv_fin np_pi 180) by lra.
  cbn [fadd fsub fmul].
  rewrite (fdiv_fin _ (1 + zc) Hz).
  rewrite (fdiv_fin _ 60) by lra.
  cbn [fmul]. reflexivity.
Qed.

(** C4.  For a filtered table with at least one object whose mean redshift
    z_cluster is not -1, the geometry cell computes the comoving distance
    r = (c z_cluster / H0) (1 - (z_cluster / 2) (1 + q0)), the
    angular-diameter distance D_A = r / (1 + z_cluster), and the diameter
    2 D_A theta, theta being the largest projected separation of the table
    converted from arcminutes to radians. *)
Theorem geometry_cell_diameter :
  forall rows : list (nat * row),
    rows <> [] ->
    let zc := Spec.mean (map (fun p => specz (snd p)) rows) in
    1 + zc <> 0 ->
    exists f1 f2 k g theta,
      velocity_cell (to_frame rows) = Returned f1 /\
      kinematics_cell f1 = Returned (f2, k) /\
      cluster_redshift k = Fin zc /\
      geometry_cell f2 (cluster_redshift k) = Returned g /\
      Spec.is_maximum theta (map (fun p => proj_sep (snd p)) rows) /\
      r_comoving g = Fin ((c_light * zc / H_0) * (1 - (zc / 2) * (1 + q0))) /\
      D_A g = Fin ((c_light * zc / H_0) * (1 - (zc / 2) * (1 + q0)) / (1 + zc)) /\
      max_sep_arcmin g = Fin theta /\
      max_sep_radians g = Fin (theta * (PI / 180) / 60) /\
      diameter g =
        Fin (2 * ((c_light * zc / H_0) * (1 - (zc / 2) * (1 + q0)) / (1 + zc))
             * (theta * (PI / 180) / 60)).
Proof.
  intros rows Hrows zc Hz.
  destruct (kinematics_stage_frames rows) as [Hv Hk].
  assert (Hzs : map (fun p => specz (snd p)) rows <> [])
    by (destruct rows; [contradiction | discriminate]).
  assert (Hseps : map (fun p => proj_sep (snd p)) rows <> [])
    by (destruct rows; [contradiction | discriminate]).
  destruct (series_max_fin _ Hseps) as (theta & Hmax & Htheta).
  rewrite (series_mean_fin_list _ Hzs) in Hk. fold zc in Hk.
  eexists. eexists. eexists. eexists. exists theta.
  split; [exact Hv |]. split; [exact Hk |].
  cbn [cluster_redshift fst snd]. split; [reflexivity |].
  split.
  { apply (geometry_cell_fin _ (map (fun p => proj_sep (snd p)) rows) zc theta);
      [| exact Hmax | exact Hz].
    cbn [columns]. apply lookup_app_some, lookup_app_some, to_frame_proj_sep. }
  split; [exact Htheta |].
  repeat split; reflexivity.
Qed.

Lemma geometry_cell_diameter_witness :
  enumerate twin_table <> [] /\
  exists f1 f2 k g theta,
    velocity_cell (to_frame (enumerate twin_table)) = Returned f1 /\
    kinematics_cell f1 = Returned (f2, k) /\
    geometry_cell f2 (cluster_redshift k) = Returned g /\
    max_sep_arcmin g = Fin theta /\
    diameter g =
      Fin (2 * ((c_light * 1 / H_0) * (1 - (1 / 2) * (1 + q0)) / (1 + 1))
           * (theta * (PI / 180) / 60)).
Proof.
  assert (Hne : enumerate twin_table <> []) by discriminate.
  assert (Hz : 1 + Spec.mean (map (fun p => specz (snd p)) (enumerate twin_table)) <> 0).
  { change (map (fun p => specz (snd p)) (enumerate twin_table)) with [1; 1].
    rewrite <- twin_mean. lra. }
  split; [exact Hne |].
  destruct (geometry_cell_diameter (enumerate twin_table) Hne Hz)
    as (f1 & f2 & k & g & theta & Hv & Hk & _ & Hg & _ & _ & _ & Hm & _ & Hd).
  exists f1, f2, k, g, theta.
  change (map (fun p => specz (snd p)) (enumerate twin_table)) with [1; 1] in Hd.
  rewrite <- twin_mean in Hd.
  repeat split; assumption.
Defined.

(** ** The computing cells together *)

Lemma aggregate_cell_nonempty (df : list row) :
  df <> [] -> aggregate_cell df <> [].
Proof.
  intros Hdf Hagg. destruct df as [| r df]; [contradiction |].
  destruct (groupby_objid_grouped (r :: df)) as (_ & _ & Hc).
  specialize (Hc r (or_introl eq_refl)).
  rewrite <- aggregate_cell_objids, Hagg in Hc. exact Hc.
Qed.

Lemma geometry_cell_returns (f : DataFrame) (zc : float) (s : Series) :
  lookup "proj_sep" (columns f) = Some s ->
  exists g, geometry_cell f zc = Returned g.
Proof.
  intros H. unfold geometry_cell. rewrite (getitem_returns _ _ _ H).
  cbn [bind]. eexists. reflexivity.
Qed.

(** The computing cells all return on every catalogue that is not empty; on
    the empty one the filter cell raises at its report. *)
Lemma computing_cells_return (df : list row) :
  (df <> [] -> exists nb, computing_cells df = Returned nb /\
                          averaged_df nb = aggregate_cell df) /\
  computing_cells [] = Raised ZeroDivisionError.
Proof.
  split; [| reflexivity].
  intros Hdf. unfold computing_cells.
  rewrite filter_cell_returns by now apply aggregate_cell_nonempty.
  cbn [bind].
  destruct (kinematics_stage_frames
              (retained (aggregate_cell df) (limits_cell (aggregate_cell df))))
    as [Hv Hk].
  rewrite Hv. cbn [bind]. rewrite Hk. cbn [bind fst snd].
  match goal with
  | |- context [geometry_cell ?f ?z] =>
      destruct (geometry_cell_returns f z _
                  (lookup_app_some _ _ _ _
                     (lookup_app_some _ _ _ _ (to_frame_proj_sep _)))) as [g Hg];
      rewrite Hg
  end.
  cbn [bind]. eexists. split; reflexivity.
Qed.

(** * Further properties of the cells *)

(** ** Grouping loses no row *)

Lemma add_to_groups_perm (r : row) (gs : list group) :
  Permutation (concat (map members (add_to_groups r gs)))
              (r :: concat (map members gs)).
Proof.
  induction gs as [| g gs IH]; simpl.
  - reflexivity.
  - destruct (objid r <? key g)%Z; simpl.
    + reflexivity.
    + destruct (objid r =? key g)%Z; simpl.
      * unfold members. cbn [first_row later_rows].
        rewrite <- app_assoc. simpl. symmetry.
        exact (Permutation_middle (first_row g :: later_rows g) _ r).
      * rewrite IH. symmetry. exact (Permutation_middle (members g) _ r).
Qed.

Lemma fold_add_to_groups_perm (df : list row) (gs : list group) :
  Permutation
    (concat (map members (fold_left (fun gs r => add_to_groups r gs) df gs)))
    (concat (map members gs) ++ df).
Proof.
  revert gs. induction df as [| r df IH]; intros gs; simpl.
  - now rewrite app_nil_r.
  - rewrite IH, add_to_groups_perm. apply Permutation_middle.
Qed.

Lemma groups_le_rows (gs : list group) :
  (length gs <= length (concat (map members gs)))%nat.
Proof.
  induction gs as [| g gs IH]; simpl; [lia |].
  rewrite length_app. lia.
Qed.

(** X1.  The groups of the aggregation cell split the catalogue: every row of
    the file lies in exactly one group, the one of its identifier, so no row
    is lost or counted twice, and the aggregated table is never longer than
    the catalogue. *)
Theorem groupby_objid_partition :
  forall df : list row,
    Permutation (concat (map members (groupby_objid df))) df /\
    (forall g r, In g (groupby_objid df) -> In r (members g) -> objid r = key g) /\
    (length (aggregate_cell df) <= length df)%nat.
Proof.
  intros df.
  assert (Hperm : Permutation (concat (map members (groupby_objid df))) df).
  { unfold groupby_objid. now rewrite fold_add_to_groups_perm. }
  split; [exact Hperm | split].
  - intros g r Hg Hr.
    destruct (groupby_objid_grouped df) as (_ & Hm & _).
    rewrite (Hm g Hg) in Hr. apply filter_In in Hr.
    now apply Z.eqb_eq.
  - unfold aggregate_cell. rewrite length_map.
    rewrite <- (Permutation_length Hperm). apply groups_le_rows.
Qed.

(** ** Aggregating an aggregated table *)

Lemma add_to_groups_last (r : row) (gs : list group) :
  Forall (fun g => (key g < objid r)%Z) gs ->
  add_to_groups r gs = gs ++ [mkGroup (objid r) r []].
Proof.
  induction 1 as [| g gs Hg _ IH]; simpl; [reflexivity |].
  destruct (objid r <? key g)%Z eqn:Hlt; [apply Z.ltb_lt in Hlt; lia |].
  destruct (objid r =? key g)%Z eqn:Heq; [apply Z.eqb_eq in Heq; lia |].
  now rewrite IH.
Qed.

Lemma fold_add_to_groups_sorted (t : list row) (gs : list group) :
  StronglySorted Z.lt (map objid t) ->
  (forall g r, In g gs -> In r t -> (key g < objid r)%Z) ->
  fold_left (fun gs r => add_to_groups r gs) t gs =
  gs ++ map (fun r => mkGroup (objid r) r []) t.
Proof.
  revert gs. induction t as [| r t IH]; intros gs Hs Hlt; simpl.
  - now rewrite app_nil_r.
  - inversion Hs as [| ? ? Hs' Hall]; subst.
    rewrite Forall_forall in Hall.
    rewrite add_to_groups_last.
    + rewrite IH; [now rewrite <- app_assoc | exact Hs' |].
      intros g r' Hg Hr'. apply in_app_or in Hg. destruct Hg as [Hg | [<- | []]].
      * apply Hlt; [exact Hg | now right].
      * simpl. apply Hall. now apply in_map.
    + apply Forall_forall. intros g Hg. apply Hlt; [exact Hg | now left].
Qed.

Lemma Rmean_single (z : R) : Rmean [z] = z.
Proof. unfold Rmean. simpl. field. Qed.

Lemma agg_single (r : row) : agg (mkGroup (objid r) r []) = r.
Proof.
  unfold agg, members. cbn [key first_row later_rows map].
  rewrite Rmean_single. now destruct r.
Qed.

(** A table with one row per identifier, in increasing order of the
    identifiers, is left as it is. *)
Lemma aggregate_cell_sorted (t : list row) :
  StronglySorted Z.lt (map objid t) -> aggregate_cell t = t.
Proof.
  intros Hs. unfold aggregate_cell, groupby_objid.
  rewrite fold_add_to_groups_sorted by (assumption || intros ? ? []).
  simpl. rewrite map_map. rewrite <- (map_id t) at 2.
  apply map_ext. intros r. apply agg_single.
Qed.

(** X2.  Aggregating the aggregated table again changes nothing: its rows
    already stand one per identifier in increasing order, and the mean of a
    single redshift is that redshift. *)
Theorem aggregate_cell_idempotent :
  forall df : list row,
    aggregate_cell (aggregate_cell df) = aggregate_cell df.
Proof.
  intros df. apply aggregate_cell_sorted.
  rewrite aggregate_cell_objids.
  now destruct (groupby_objid_grouped df) as (Hs & _).
Qed.

(** ** The report of the filter cell *)

Lemma length_filter_combine {A : Type} (f : A -> bool) (l : list A)
      (labels : list nat) :
  length labels = length l ->
  length (filter (fun p => f (snd p)) (combine labels l)) = length (filter f l).
Proof.
  revert labels. induction l as [| a l IH]; intros [| i labels] H;
    simpl in *; try reflexivity; try discriminate.
  destruct (f a); simpl; rewrite IH by lia; reflexivity.
Qed.

Lemma retained_length (t : list row) (lim : Limits) :
  length (retained t lim) =
  length (filter (fun r => within (lower_limit lim) (upper_limit lim) (specz r)) t).
Proof.
  unfold retained, enumerate. rewrite retained_filter.
  apply (length_filter_combine
           (fun r => within (lower_limit lim) (upper_limit lim) (specz r))).
  apply length_seq.
Qed.

Lemma len_to_frame (rows : list (nat * row)) : len (to_frame rows) = length rows.
Proof. unfold len. cbn [to_frame index]. apply length_map. Qed.

Lemma single_row_retained (r : row) : retained [r] (limits_cell [r]) = [].
Proof. reflexivity. Qed.

(** X4.  The report of the filter cell.  The cell raises exactly when the
    report divides by zero, that is for the empty table.  For one object the
    report says one row, 100 percent, removed.  For a table that is not empty
    and any limits, the number of removed rows lies between 0 and the number
    of objects and the removed share between 0 and 100 percent. *)
Theorem filter_cell_report :
  forall t : list row,
    (forall lim,
        filter_cell t lim =
        (p <- removed_percent t (to_frame (retained t lim)) ;;
         Returned (to_frame (retained t lim)))) /\
    (t = [] ->
     removed_percent t (to_frame (retained t (limits_cell t))) =
       Raised ZeroDivisionError) /\
    (length t = 1%nat ->
     removed t (to_frame (retained t (limits_cell t))) = 1%Z /\
     removed_percent t (to_frame (retained t (limits_cell t))) = Returned 100) /\
    (t <> [] ->
     forall lim, exists p,
       removed_percent t (to_frame (retained t lim)) = Returned p /\
       (0 <= removed t (to_frame (retained t lim)) <= Z.of_nat (length t))%Z /\
       0 <= p <= 100).
Proof.
  intros t. split; [| split; [| split]].
  - intros lim. unfold filter_cell, removed_percent.
    destruct t as [| r t]; [reflexivity |].
    replace (Z.of_nat (length (r :: t)) =? 0)%Z with false
      by (symmetry; apply Z.eqb_neq; simpl length; lia).
    reflexivity.
  - intros ->. reflexivity.
  - intros H1. destruct t as [| r [| r' t]]; try discriminate.
    rewrite single_row_retained. unfold removed_percent, removed.
    cbn. split; [reflexivity |]. f_equal. lra.
  - intros Hne lim.
    set (kept := length (retained t lim)).
    assert (Hle : (kept <= length t)%nat).
    { subst kept. rewrite retained_length. apply filter_length_le. }
    assert (Hn : (0 < length t)%nat) by (destruct t; simpl; [contradiction | lia]).
    assert (Hrem : removed t (to_frame (retained t lim)) =
                   Z.of_nat (length t - kept)).
    { unfold removed. rewrite len_to_frame. fold kept. lia. }
    unfold removed_percent. rewrite Hrem.
    replace (Z.of_nat (length t) =? 0)%Z with false
      by (symmetry; apply Z.eqb_neq; lia).
    eexists. split; [reflexivity |]. split; [lia |].
    rewrite mult_IZR, <- !INR_IZR_INZ.
    assert (Hpos : 0 < INR (length t)) by (apply lt_0_INR; lia).
    pose proof (pos_INR (length t - kept)) as Hk0.
    assert (Hk : INR (length t - kept) <= INR (length t)) by (apply le_INR; lia).
    split.
    + apply Rmult_le_pos; [lra |]. left. now apply Rinv_0_lt_compat.
    + apply Rmult_le_reg_r with (INR (length t)); [exact Hpos |].
      unfold Rdiv. rewrite Rmult_assoc, Rinv_l by lra. lra.
Qed.

Lemma filter_cell_report_witness :
  twin_table <> [] /\
  exists p,
    removed_percent twin_table
      (to_frame (retained twin_table (limits_cell twin_table))) = Returned p /\
    0 <= p <= 100.
Proof.
  assert (H : twin_table <> []) by discriminate.
  split; [exact H |].
  destruct (proj2 (proj2 (proj2 (filter_cell_report twin_table))) H
              (limits_cell twin_table))
    as (p & Hp & _ & Hb).
  exists p. split; assumption.
Defined.

(** ** The labels of the filtered table *)

Lemma filter_combine_seq_sorted {A : Type} (f : nat * A -> bool) (l : list A)
      (s : nat) :
  StronglySorted lt (map fst (filter f (combine (seq s (length l)) l))).
Proof.
  revert s. induction l as [| a l IH]; intros s; simpl; [constructor |].
  assert (Hrest : Forall (lt s)
            (map fst (filter f (combine (seq (S s) (length l)) l)))).
  { apply Forall_forall. intros i Hi. apply in_map_iff in Hi.
    destruct Hi as ([j b] & <- & Hj). apply filter_In in Hj.
    destruct Hj as [Hj _]. apply in_combine_seq in Hj. simpl. lia. }
  destruct (f (s, a)); simpl.
  - constructor; [apply IH | exact Hrest].
  - apply IH.
Qed.

(** X5.  The filtered table keeps the labels and the order of the aggregated
    table: its labels increase strictly and each is the position of a row of
    the aggregated table, so the table is not renumbered and no row is
    repeated. *)
Theorem filtered_labels_increasing :
  forall (t : list row) (lim : Limits) (f0 : DataFrame),
    filter_cell t lim = Returned f0 ->
    StronglySorted lt (index f0) /\
    Forall (fun i => (i < length t)%nat) (index f0) /\
    NoDup (index f0) /\
    (len f0 <= length t)%nat.
Proof.
  intros t lim f0 Hf.
  assert (Hf0 : f0 = to_frame (retained t lim)).
  { unfold filter_cell in Hf. destruct (length t =? 0)%nat; [discriminate |].
    now injection Hf. }
  subst f0. clear Hf.
  assert (Hs : StronglySorted lt (index (to_frame (retained t lim)))).
  { cbn [to_frame index]. unfold retained, enumerate.
    rewrite retained_filter. apply filter_combine_seq_sorted. }
  split; [exact Hs | split; [| split]].
  - apply Forall_forall. intros i Hi. cbn [to_frame index] in Hi.
    apply in_map_iff in Hi. destruct Hi as ([j r] & <- & Hj).
    apply in_retained in Hj. destruct Hj as [Hj _].
    simpl. apply nth_error_Some. congruence.
  - clear -Hs. induction Hs as [| i l Hs IH Hall]; constructor; [| exact IH].
    intros Hin. rewrite Forall_forall in Hall. specialize (Hall i Hin). lia.
  - rewrite len_to_frame, retained_length. apply filter_length_le.
Qed.

Lemma filtered_labels_increasing_witness :
  StronglySorted lt
    (index (to_frame (retained twin_table (limits_cell twin_table)))).
Proof.
  exact (proj1 (filtered_labels_increasing twin_table (limits_cell twin_table)
                  (to_frame (retained twin_table (limits_cell twin_table)))
                  eq_refl)).
Defined.

(** ** The velocity offset as a function of the redshift *)

Lemma c_light_pos : 0 < c_light.
Proof. unfold c_light. lra. Qed.

Lemma div_le_div (n1 d1 n2 d2 : R) :
  0 < d1 -> 0 < d2 -> n1 * d2 <= n2 * d1 -> n1 / d1 <= n2 / d2.
Proof.
  intros H1 H2 H. apply Rmult_le_reg_r with (d1 * d2); [nra |].
  replace (n1 / d1 * (d1 * d2)) with (n1 * d2) by (field; lra).
  replace (n2 / d2 * (d1 * d2)) with (n2 * d1) by (field; lra).
  exact H.
Qed.

Lemma velocity_offset_bounds (z zc : R) :
  (1 + z) * (1 + z) + (1 + zc) * (1 + zc) <> 0 ->
  - c_light <= Spec.velocity_offset z zc <= c_light.
Proof.
  intros Hd. pose proof c_light_pos as Hc.
  pose proof (Rle_0_sqr (1 + z)) as Ha. pose proof (Rle_0_sqr (1 + zc)) as Hb.
  unfold Rsqr in Ha, Hb.
  set (A := (1 + z) * (1 + z)) in *. set (B := (1 + zc) * (1 + zc)) in *.
  assert (HD : 0 < A + B) by lra.
  assert (Hq1 : (A - B) / (A + B) <= 1).
  { replace 1 with (1 / 1) by field. apply div_le_div; lra. }
  assert (Hq2 : -1 <= (A - B) / (A + B)).
  { replace (-1) with (-1 / 1) by field. apply div_le_div; lra. }
  unfold Spec.velocity_offset. fold A B.
  replace (c_light * (A - B) / (A + B)) with (c_light * ((A - B) / (A + B)))
    by (unfold Rdiv; ring).
  split; nra.
Qed.

Lemma velocity_offset_swap (z zc : R) :
  (1 + z) * (1 + z) + (1 + zc) * (1 + zc) <> 0 ->
  Spec.velocity_offset zc z = - Spec.velocity_offset z zc.
Proof.
  intros Hd. unfold Spec.velocity_offset. field.
  repeat split; intros Heq; apply Hd; nra.
Qed.

Lemma sum_of_squares_zero (a b : R) : a * a + b * b = 0 -> a = 0 /\ b = 0.
Proof.
  intros H. pose proof (Rle_0_sqr a) as Ha. pose proof (Rle_0_sqr b) as Hb.
  unfold Rsqr in Ha, Hb.
  assert (Ha0 : a * a = 0) by lra. assert (Hb0 : b * b = 0) by lra.
  apply Rmult_integral in Ha0. apply Rmult_integral in Hb0.
  split; [destruct Ha0 | destruct Hb0]; assumption.
Qed.

(** X7.  The velocity offset of an object is NaN only when its redshift and
    the cluster redshift are both -1.  Otherwise it is a number between -c
    and c, and exchanging the object and the cluster changes its sign. *)
Theorem doppler_never_exceeds_light :
  forall z zc : R,
    (1 + z = 0 /\ 1 + zc = 0 /\
     doppler (Fin z) (Fin zc) = NaN /\ doppler (Fin zc) (Fin z) = NaN) \/
    (exists v,
        doppler (Fin z) (Fin zc) = Fin v /\
        - c_light <= v <= c_light /\
        doppler (Fin zc) (Fin z) = Fin (- v)).
Proof.
  intros z zc.
  destruct (Req_dec_T ((1 + z) * (1 + z) + (1 + zc) * (1 + zc)) 0) as [E | E].
  - left.
    destruct (sum_of_squares_zero _ _ E) as [Hz Hzc].
    repeat split; try assumption; now apply doppler_zero_over_zero.
  - right. exists (Spec.velocity_offset z zc).
    split; [now apply doppler_fin |].
    split; [now apply velocity_offset_bounds |].
    rewrite doppler_fin by (rewrite Rplus_comm; exact E).
    f_equal. now apply velocity_offset_swap.
Qed.

(** X8.  With the cluster redshift above -1, the velocity offset grows with
    the redshift of the object (from -1 upwards): it is positive exactly for
    the objects beyond the cluster redshift and 0 exactly at it. *)
Theorem doppler_monotone :
  forall z1 z2 zc : R,
    -1 < zc -> -1 <= z1 -> z1 <= z2 ->
    exists v1 v2,
      doppler (Fin z1) (Fin zc) = Fin v1 /\
      doppler (Fin z2) (Fin zc) = Fin v2 /\
      v1 <= v2 /\
      (0 < v2 <-> zc < z2) /\
      (v2 = 0 <-> z2 = zc).
Proof.
  intros z1 z2 zc Hzc Hz1 Hz12. pose proof c_light_pos as Hc.
  assert (HB : 0 < (1 + zc) * (1 + zc)) by nra.
  pose proof (Rle_0_sqr (1 + z1)) as Ha1. pose proof (Rle_0_sqr (1 + z2)) as Ha2.
  unfold Rsqr in Ha1, Ha2.
  assert (Hle : (1 + z1) * (1 + z1) <= (1 + z2) * (1 + z2)) by nra.
  assert (Hsgn : zc < z2 <-> (1 + zc) * (1 + zc) < (1 + z2) * (1 + z2))
    by (split; intros; nra).
  assert (Heq : z2 = zc <-> (1 + z2) * (1 + z2) = (1 + zc) * (1 + zc))
    by (split; intros; nra).
  exists (Spec.velocity_offset z1 zc), (Spec.velocity_offset z2 zc).
  rewrite !doppler_fin by lra.
  split; [reflexivity | split; [reflexivity |]].
  unfold Spec.velocity_offset.
  set (A1 := (1 + z1) * (1 + z1)) in *. set (A2 := (1 + z2) * (1 + z2)) in *.
  set (B := (1 + zc) * (1 + zc)) in *.
  assert (Hinv : 0 < / (A2 + B)) by (apply Rinv_0_lt_compat; lra).
  split; [| split].
  - apply div_le_div; try lra.
    assert (0 <= c_light * B * (A2 - A1))
      by (apply Rmult_le_pos; [nra | lra]).
    nra.
  - rewrite Hsgn. unfold Rdiv. split; intros H.
    + assert (0 < c_light * (A2 - B)) by nra. nra.
    + apply Rmult_lt_0_compat; [| exact Hinv]. nra.
  - rewrite Heq. unfold Rdiv. split; intros H.
    + apply Rmult_integral in H. destruct H as [H | H]; [| lra].
      apply Rmult_integral in H. destruct H as [H | H]; lra.
    + rewrite H. ring.
Qed.

Lemma doppler_monotone_witness :
  -1 < 1 /\
  exists v1 v2,
    doppler (Fin 0) (Fin 1) = Fin v1 /\
    doppler (Fin 2) (Fin 1) = Fin v2 /\
    v1 <= v2.
Proof.
  assert (H1 : -1 < 1) by lra. assert (H2 : -1 <= 0) by lra.
  assert (H3 : 0 <= 2) by lra.
  split; [exact H1 |].
  destruct (doppler_monotone 0 2 1 H1 H2 H3) as (v1 & v2 & Ha & Hb & Hle & _).
  exists v1, v2. repeat split; assumption.
Defined.

(** ** When the dispersion is a number *)

Lemma fadd_nan_r (x : float) : fadd x NaN = NaN.
Proof. now destruct x. Qed.

Lemma fsum_nan (a : list float) : In NaN a -> fsum a = NaN.
Proof.
  induction a as [| x a IH]; simpl; intros H; [contradiction |].
  destruct H as [-> | H]; [reflexivity |].
  rewrite (IH H). apply fadd_nan_r.
Qed.

Lemma np_std_nan (a : list float) : In NaN a -> np_std a = NaN.
Proof.
  intros H. unfold np_std. rewrite fsum_nan; [reflexivity |].
  apply in_map_iff. exists NaN. split; [reflexivity |].
  apply in_map_iff. exists NaN. split; [reflexivity | exact H].
Qed.

Lemma np_std_nil : np_std [] = NaN.
Proof.
  unfold np_std, np_mean. cbn [map fsum length].
  change (INR 0) with 0. now rewrite fdiv_zero.
Qed.

(** X9.  The dispersion reported by the kinematics cell is NaN exactly when
    the filtered table is empty, or when its mean redshift is -1 and one of
    its objects has redshift -1; in every other case it is a number that is
    not negative. *)
Theorem disp_is_a_number :
  forall (f : DataFrame) (zs : list R),
    lookup "specz" (columns f) = Some (Float64 (map Fin zs)) ->
    length (index f) = length zs ->
    exists f' k,
      kinematics_cell f = Returned (f', k) /\
      ((disp k = NaN /\ (zs = [] \/ (1 + Spec.mean zs = 0 /\ In (-1) zs))) \/
       (exists x, disp k = Fin x /\ 0 <= x /\
                  zs <> [] /\ ~ (1 + Spec.mean zs = 0 /\ In (-1) zs))).
Proof.
  intros f zs Hz Hlen. rewrite (kinematics_cell_returns f zs Hz Hlen).
  eexists. eexists. split; [reflexivity |]. cbn [disp].
  destruct zs as [| z0 zs'].
  - left. split; [apply np_std_nil | now left].
  - set (zs := z0 :: zs') in *.
    assert (Hne : zs <> []) by discriminate.
    rewrite (series_mean_fin_list zs Hne).
    destruct (Req_dec_T (1 + Spec.mean zs) 0) as [Hm | Hm].
    + destruct (in_dec Req_dec_T (-1) zs) as [Hin | Hin].
      * left. split; [| right; now split].
        apply np_std_nan. apply in_map_iff. exists (Fin (-1)).
        split; [apply doppler_zero_over_zero; lra | now apply in_map].
      * right. eexists. split; [| split; [| split; [exact Hne | tauto]]].
        -- rewrite map_doppler_fin.
           ++ apply np_std_fin. destruct zs; [contradiction | discriminate].
           ++ apply Forall_forall. intros z Hzin Hd.
              apply sum_of_squares_zero in Hd. destruct Hd as [Hd _].
              apply Hin. replace (-1) with z by lra. exact Hzin.
        -- apply sqrt_pos.
    + right. eexists. split; [| split; [| split; [exact Hne | tauto]]].
      * rewrite map_doppler_fin.
        -- apply np_std_fin. destruct zs; [contradiction | discriminate].
        -- apply Forall_forall. intros z Hzin Hd.
           apply sum_of_squares_zero in Hd. destruct Hd as [_ Hd]. lra.
      * apply sqrt_pos.
Qed.

Lemma disp_is_a_number_witness :
  exists f' k,
    kinematics_cell (to_frame (enumerate twin_table)) = Returned (f', k) /\
    (disp k = NaN \/ exists x, disp k = Fin x /\ 0 <= x).
Proof.
  destruct (disp_is_a_number (to_frame (enumerate twin_table)) [1; 1]
              twin_frame_specz eq_refl)
    as (f' & k & Hk & [[Hn _] | (x & Hx & Hpos & _)]).
  - exists f', k. split; [exact Hk | now left].
  - exists f', k. split; [exact Hk | right; now exists x].
Defined.

(** ** A catalogue of one object *)

Lemma fold_add_same_objid (rest later : list row) (r0 : row) :
  (forall r, In r rest -> objid r = objid r0) ->
  fold_left (fun gs r => add_to_groups r gs) rest [mkGroup (objid r0) r0 later] =
  [mkGroup (objid r0) r0 (later ++ rest)].
Proof.
  revert later. induction rest as [| r rest IH]; intros later H; simpl.
  - now rewrite app_nil_r.
  - rewrite (H r (or_introl eq_refl)), Z.ltb_irrefl, Z.eqb_refl.
    cbn [key first_row later_rows].
    rewrite IH by (intros r' Hr'; apply H; now right).
    now rewrite <- app_assoc.
Qed.

Lemma aggregate_cell_same_objid (r0 : row) (rest : list row) :
  (forall r, In r rest -> objid r = objid r0) ->
  aggregate_cell (r0 :: rest) = [agg (mkGroup (objid r0) r0 rest)].
Proof.
  intros H. unfold aggregate_cell, groupby_objid. cbn [fold_left add_to_groups].
  now rewrite (fold_add_same_objid rest [] r0 H).
Qed.

(** X11.  A catalogue whose rows all carry the same identifier is aggregated
    to one object; the computing cells then all return, with an empty
    filtered table and NaN for the cluster redshift, the dispersion, the
    diameter and the dynamical mass. *)
Theorem computing_cells_single_object :
  forall (df : list row) (id : Z),
    df <> [] ->
    (forall r, In r df -> objid r = id) ->
    exists nb,
      computing_cells df = Returned nb /\
      length (averaged_df nb) = 1%nat /\
      index (filtered_df nb) = [] /\
      cluster_redshift (kinematics nb) = NaN /\
      disp (kinematics nb) = NaN /\
      diameter (geometry nb) = NaN /\
      M_dyn_solar (mass nb) = NaN.
Proof.
  intros df id Hne Hid. destruct df as [| r0 rest]; [contradiction |].
  assert (Hsame : forall r, In r rest -> objid r = objid r0).
  { intros r Hr. rewrite (Hid r0 (or_introl eq_refl)). apply Hid. now right. }
  unfold computing_cells. rewrite (aggregate_cell_same_objid r0 rest Hsame).
  set (a := agg (mkGroup (objid r0) r0 rest)).
  rewrite filter_cell_returns by discriminate.
  rewrite single_row_retained. cbn [bind].
  destruct (kinematics_stage_frames []) as [Hv Hk].
  rewrite Hv. cbn [bind]. rewrite Hk. cbn [bind fst snd cluster_redshift disp].
  cbn [map series_mean dropna]. rewrite np_std_nil.
  eexists. split; [reflexivity |].
  cbn [averaged_df filtered_df kinematics geometry mass index to_frame map
       cluster_redshift disp diameter length].
  repeat split; reflexivity.
Qed.

Lemma computing_cells_single_object_witness :
  repeat_catalogue <> [] /\
  exists nb,
    computing_cells repeat_catalogue = Returned nb /\
    index (filtered_df nb) = [] /\
    M_dyn_solar (mass nb) = NaN.
Proof.
  assert (Hne : repeat_catalogue <> []) by discriminate.
  assert (Hid : forall r, In r repeat_catalogue -> objid r = 7%Z).
  { intros r [<- | [<- | [<- | []]]]; reflexivity. }
  split; [exact Hne |].
  destruct (computing_cells_single_object repeat_catalogue 7%Z Hne Hid)
    as (nb & Hrun & _ & Hidx & _ & _ & _ & Hm).
  exists nb. repeat split; assumption.
Defined.

(** X12.  Run one after the other, the computing cells raise on the empty
    catalogue only, and then ZeroDivisionError at the report of the filter
    cell; on every other catalogue each of them returns, so none ever misses
    a column or assigns a column of the wrong length. *)
Theorem computing_cells_raise_only_on_empty :
  forall df : list row,
    (df = [] /\ computing_cells df = Raised ZeroDivisionError) \/
    (df <> [] /\
     exists nb, computing_cells df = Returned nb /\
                averaged_df nb = aggregate_cell df /\
                averaged_df nb <> []).
Proof.
  intros df. destruct df as [| r df].
  - left. split; reflexivity.
  - right. split; [discriminate |].
    destruct (proj1 (computing_cells_return (r :: df))) as (nb & Hrun & Havg);
      [discriminate |].
    exists nb. split; [exact Hrun | split; [exact Havg |]].
    rewrite Havg. apply aggregate_cell_nonempty. discriminate.
Qed.

(** ** Running a cell twice *)

Lemma assign_idem (name : string) (s s' : Series) (cols : list (string * Series)) :
  assign name s (assign name s' cols) = assign name s cols.
Proof.
  induction cols as [| [n c] cols IH]; simpl.
  - now rewrite String.eqb_refl.
  - destruct (String.eqb n name) eqn:E; simpl.
    + now rewrite String.eqb_refl.
    + now rewrite E, IH.
Qed.

Lemma setitem_inv (name : string) (s : Series) (df df' : DataFrame) :
  setitem name s df = Returned df' ->
  series_len s = length (index df) /\
  df' = mkDF (index df) (assign name s (columns df)).
Proof.
  unfold setitem. destruct (series_len s =? length (index df))%nat eqn:E;
    [| discriminate].
  intros H. apply Nat.eqb_eq in E. split; [exact E | now injection H].
Qed.

Lemma getitem_inv (name : string) (s : Series) (df : DataFrame) :
  getitem name df = Returned s -> lookup name (columns df) = Some s.
Proof.
  unfold getitem. destruct (lookup name (columns df)); [| discriminate].
  intros H. now injection H as ->.
Qed.

(** X13.  Running the velocity cell, or the kinematics cell, a second time
    on the table it produced gives that table again (and the same cluster
    redshift, offsets and dispersion): the column is replaced where it
    stands, not added once more. *)
Theorem cells_can_be_rerun :
  (forall f f1 : DataFrame,
      velocity_cell f = Returned f1 -> velocity_cell f1 = Returned f1) /\
  (forall (f f2 : DataFrame) (k : Kinematics),
      kinematics_cell f = Returned (f2, k) ->
      kinematics_cell f2 = Returned (f2, k)).
Proof.
  split.
  - intros f f1 H. unfold velocity_cell in *.
    destruct (getitem "specz" f) as [z |] eqn:Hz; [| discriminate].
    cbn [bind] in H. apply setitem_inv in H. destruct H as [Hlen ->].
    apply getitem_inv in Hz.
    rewrite (getitem_returns "specz" z).
    + cbn [bind]. rewrite setitem_returns by exact Hlen.
      cbn [index columns]. now rewrite assign_idem.
    + cbn [columns]. rewrite lookup_assign_other by discriminate. exact Hz.
  - intros f f2 k H. unfold kinematics_cell in *.
    destruct (getitem "specz" f) as [z |] eqn:Hz; [| discriminate].
    cbn [bind] in H.
    destruct (setitem "v_dispersion" _ f) as [f' |] eqn:Hs; [| discriminate].
    cbn [bind] in H. injection H as <- <-.
    apply setitem_inv in Hs. destruct Hs as [Hlen ->].
    apply getitem_inv in Hz.
    rewrite (getitem_returns "specz" z).
    + cbn [bind]. rewrite setitem_returns by exact Hlen.
      cbn [bind index columns]. now rewrite assign_idem.
    + cbn [columns]. rewrite lookup_assign_other by discriminate. exact Hz.
Qed.

Lemma cells_can_be_rerun_witness :
  exists f1,
    velocity_cell (to_frame (enumerate twin_table)) = Returned f1 /\
    velocity_cell f1 = Returned f1.
Proof.
  destruct (kinematics_stage_frames (enumerate twin_table)) as [Hv _].
  eexists. split; [exact Hv |].
  exact (proj1 cells_can_be_rerun _ _ Hv).
Defined.

(** ** The derived columns, row by row *)

(** X14.  After the velocity and kinematics cells, the row of label l holds
    in the column velocity c times the redshift of the aggregated row l, and
    in the column v_dispersion the velocity offset of that redshift against
    the cluster redshift; the kinematics cell leaves the velocities as they
    were. *)
Theorem derived_columns_follow_the_rows :
  forall (t : list row) (lim : Limits) (f0 : DataFrame),
    filter_cell t lim = Returned f0 ->
    exists f1 f2 k,
      velocity_cell f0 = Returned f1 /\
      kinematics_cell f1 = Returned (f2, k) /\
      length (v_dispersion k) = len f0 /\
      (forall i label,
          nth_error (index f2) i = Some label ->
          exists r,
            nth_error t label = Some r /\
            cell "velocity" i f1 = Some (Fin (c_light * specz r)) /\
            cell "velocity" i f2 = Some (Fin (c_light * specz r)) /\
            cell "v_dispersion" i f2 =
              Some (doppler (Fin (specz r)) (cluster_redshift k)) /\
            nth_error (v_dispersion k) i =
              Some (doppler (Fin (specz r)) (cluster_redshift k))).
Proof.
  intros t lim f0 Hf.
  assert (Hf0 : f0 = to_frame (retained t lim)).
  { unfold filter_cell in Hf. destruct (length t =? 0)%nat; [discriminate |].
    now injection Hf. }
  subst f0. clear Hf.
  destruct (kinematics_stage_frames (retained t lim)) as [Hv Hk].
  eexists. eexists. eexists.
  split; [exact Hv |]. split; [exact Hk |].
  cbn [v_dispersion cluster_redshift index].
  split; [rewrite len_to_frame; now rewrite !length_map |].
  intros i label Hi. cbn [to_frame index] in Hi.
  destruct (retained_rows t lim i label Hi) as (r & Hrow & Hagg).
  exists r. split; [exact Hagg |].
  assert (Hzi : nth_error (map Fin (map (fun p => specz (snd p)) (retained t lim))) i =
                Some (Fin (specz r))).
  { rewrite map_map. exact (map_nth_error (fun p => Fin (specz (snd p))) _ _ Hrow). }
  assert (Hvel : nth_error
                   (map (fun z => fmul (Fin c_light) z)
                        (map Fin (map (fun p => specz (snd p)) (retained t lim)))) i =
                 Some (Fin (c_light * specz r))).
  { exact (map_nth_error (fun z => fmul (Fin c_light) z) _ _ Hzi). }
  unfold cell. cbn [columns].
  assert (Hl1 : forall cols extra,
             lookup "velocity" (cols ++ extra) =
             match lookup "velocity" cols with
             | Some s => Some s
             | None => lookup "velocity" extra
             end).
  { intros cols extra. induction cols as [| [n c] cols IH]; simpl; [reflexivity |].
    destruct (String.eqb n "velocity"); [reflexivity | exact IH]. }
  assert (Hvelcol :
            lookup "velocity"
              (columns (to_frame (retained t lim)) ++
               [("velocity"%string,
                 Float64 (map (fun z => fmul (Fin c_light) z)
                            (map Fin (map (fun p => specz (snd p)) (retained t lim)))))]) =
            Some (Float64 (map (fun z => fmul (Fin c_light) z)
                             (map Fin (map (fun p => specz (snd p)) (retained t lim)))))).
  { rewrite Hl1. reflexivity. }
  split; [| split; [| split]].
  - rewrite Hvelcol. exact Hvel.
  - rewrite (lookup_app_some _ _ _ _ Hvelcol). exact Hvel.
  - assert (Hd : forall cols s,
               lookup "v_dispersion" cols = None ->
               lookup "v_dispersion" (cols ++ [("v_dispersion"%string, s)]) = Some s).
    { intros cols s Hn. rewrite <- (assign_fresh _ _ _ Hn).
      apply lookup_assign_same. }
    rewrite Hd by reflexivity. cbn [values].
    exact (map_nth_error _ _ _ Hzi).
  - exact (map_nth_error _ _ _ Hzi).
Qed.

Lemma derived_columns_follow_the_rows_witness :
  exists f1 f2 k,
    velocity_cell (to_frame (retained twin_table (limits_cell twin_table))) =
      Returned f1 /\
    kinematics_cell f1 = Returned (f2, k) /\
    length (v_dispersion k) =
      len (to_frame (retained twin_table (limits_cell twin_table))).
Proof.
  destruct (derived_columns_follow_the_rows
              twin_table (limits_cell twin_table)
              (to_frame (retained twin_table (limits_cell twin_table)))
              eq_refl)
    as (f1 & f2 & k & Hv & Hk & Hlen & _).
  exists f1, f2, k. repeat split; assumption.
Defined.

(** ** Where the distances are positive *)

Lemma comoving_distance_factored (zc : R) :
  Spec.comoving_distance zc =
  c_light / H_0 * (zc * (1 - 233 / 1000 * zc)).
Proof.
  unfold Spec.comoving_distance, q0.
  replace (-0.534) with (-534 / 1000) by lra.
  field. apply H_0_neq_0.
Qed.

Lemma hubble_length_pos : 0 < c_light / H_0.
Proof.
  apply Rdiv_lt_0_compat; [apply c_light_pos | unfold H_0; lra].
Qed.

(** X15.  The comoving distance of the geometry cell is positive exactly for
    a cluster redshift between 0 and 1000/233 (about 4.29): it is 0 at both
    ends, negative outside, and never above 250/233 times c/H0.  Inside that
    range the angular-diameter distance is positive and the diameter has the
    sign of the largest separation. *)
Theorem comoving_distance_range :
  forall (f : DataFrame) (seps : list R) (zc : R),
    lookup "proj_sep" (columns f) = Some (Float64 (map Fin seps)) ->
    seps <> [] ->
    1 + zc <> 0 ->
    exists g r dA theta d,
      geometry_cell f (Fin zc) = Returned g /\
      r_comoving g = Fin r /\ D_A g = Fin dA /\
      max_sep_arcmin g = Fin theta /\ diameter g = Fin d /\
      (0 < r <-> 0 < zc < 1000 / 233) /\
      (r = 0 <-> zc = 0 \/ zc = 1000 / 233) /\
      r <= c_light / H_0 * (250 / 233) /\
      (0 < zc < 1000 / 233 -> 0 < dA < r /\ (0 <= theta -> 0 <= d)).
Proof.
  intros f seps zc Hp Hne Hz.
  destruct (series_max_fin seps Hne) as (theta & Hmax & _).
  rewrite (geometry_cell_fin f seps zc theta Hp Hmax Hz).
  eexists. eexists. eexists. eexists. eexists.
  split; [reflexivity |].
  cbn [r_comoving D_A max_sep_arcmin diameter].
  split; [reflexivity |]. split; [reflexivity |].
  split; [reflexivity |]. split; [reflexivity |].
  pose proof hubble_length_pos as HK.
  unfold Spec.angular_diameter_distance, Spec.arcmin_to_radians.
  rewrite comoving_distance_factored.
  set (K := c_light / H_0) in *.
  set (q := zc * (1 - 233 / 1000 * zc)).
  assert (Hq : 0 < q <-> 0 < zc < 1000 / 233) by (subst q; split; intros; nra).
  assert (Hq0 : q = 0 <-> zc = 0 \/ zc = 1000 / 233).
  { subst q. split.
    - intros H. apply Rmult_integral in H. destruct H as [H | H]; [now left |].
      right. lra.
    - intros [-> | ->]; field. }
  assert (Hqmax : q <= 250 / 233).
  { subst q. pose proof (Rle_0_sqr (zc - 500 / 233)) as Hsq.
    unfold Rsqr in Hsq. nra. }
  split; [| split; [| split; [| ]]].
  - rewrite <- Hq. split; intros H; nra.
  - rewrite <- Hq0. split; intros H.
    + apply Rmult_integral in H. destruct H as [H | H]; lra.
    + rewrite H. ring.
  - apply Rmult_le_compat_l; lra.
  - intros Hrange. apply Hq in Hrange as Hqpos.
    assert (Hr : 0 < K * q) by nra.
    assert (H1 : 1 < 1 + zc) by lra.
    assert (Hinv : 0 < / (1 + zc) < 1).
    { split; [apply Rinv_0_lt_compat; lra |].
      rewrite <- Rinv_1. apply Rinv_lt_contravar; lra. }
    unfold Rdiv at 1 2. split; [split; nra |].
    intros Htheta.
    assert (HdA : 0 < K * q * / (1 + zc)) by nra.
    assert (Hrad : 0 <= theta * (PI / 180) / 60).
    { pose proof PI_RGT_0 as Hpi.
      apply Rmult_le_pos; [| lra].
      apply Rmult_le_pos; [exact Htheta |].
      apply Rmult_le_pos; lra. }
    unfold Rdiv at 1. nra.
Qed.

Lemma comoving_distance_range_witness :
  [5; 6] <> [] /\
  exists g r,
    geometry_cell (to_frame (enumerate twin_table)) (Fin 1) = Returned g /\
    r_comoving g = Fin r /\
    (0 < r <-> 0 < 1 < 1000 / 233).
Proof.
  assert (Hne : [5; 6] <> ([] : list R)) by discriminate.
  assert (Hz : 1 + 1 <> 0) by lra.
  split; [exact Hne |].
  destruct (comoving_distance_range (to_frame (enumerate twin_table)) [5; 6] 1
              eq_refl Hne Hz)
    as (g & r & dA & theta & d & Hg & Hr & _ & _ & _ & Hpos & _).
  exists g, r. split; [exact Hg | split; [exact Hr | exact Hpos]].
Defined.

(** ** The sign of the mass *)

Lemma mass_constant_pos : 0 < 3 * (1000 * 1000) * (0.5 * 3.086e22) / G_SI / M_sun.
Proof.
  unfold G_SI, M_sun.
  apply Rdiv_lt_0_compat; [| lra].
  apply Rdiv_lt_0_compat; lra.
Qed.

(** X16.  For a finite dispersion and diameter the mass is a number with the
    sign of the diameter: it is 0 exactly when the dispersion or the diameter
    is 0, not negative when the diameter is not negative, and the same for a
    dispersion and its opposite. *)
Theorem mass_cell_sign :
  forall sigma d : R,
    exists m,
      M_dyn_solar (mass_cell (Fin sigma) (Fin d)) = Fin m /\
      M_dyn_solar (mass_cell (Fin (- sigma)) (Fin d)) = Fin m /\
      (0 <= d -> 0 <= m) /\
      (d < 0 -> m <= 0) /\
      (m = 0 <-> sigma = 0 \/ d = 0).
Proof.
  intros sigma d. pose proof mass_constant_pos as HC.
  set (C := 3 * (1000 * 1000) * (0.5 * 3.086e22) / G_SI / M_sun) in *.
  assert (Hm : 3 * (sigma * 1000 * (sigma * 1000)) * (d * 0.5 * 3.086e22)
               / G_SI / M_sun = C * (sigma * sigma * d)).
  { subst C. unfold Rdiv. ring. }
  assert (Hm' : 3 * (- sigma * 1000 * (- sigma * 1000)) * (d * 0.5 * 3.086e22)
                / G_SI / M_sun = C * (sigma * sigma * d)).
  { subst C. unfold Rdiv. ring. }
  exists (C * (sigma * sigma * d)).
  rewrite !mass_cell_fin. cbn [M_dyn_solar]. rewrite Hm, Hm'.
  pose proof (Rle_0_sqr sigma) as Hsq. unfold Rsqr in Hsq.
  split; [reflexivity | split; [reflexivity | split; [| split]]].
  - intros Hd. apply Rmult_le_pos; [lra |]. now apply Rmult_le_pos.
  - intros Hd. assert (sigma * sigma * d <= 0) by nra. nra.
  - split.
    + intros H. apply Rmult_integral in H. destruct H as [H | H]; [lra |].
      apply Rmult_integral in H. destruct H as [H | H]; [| now right].
      apply Rmult_integral in H. left. now destruct H.
    + intros [-> | ->]; ring.
Qed.

(** ** The order of the rows of the catalogue *)

Lemma sorted_same_members (l1 l2 : list Z) :
  StronglySorted Z.lt l1 -> StronglySorted Z.lt l2 ->
  (forall k, In k l1 <-> In k l2) -> l1 = l2.
Proof.
  intros H1. revert l2. induction H1 as [| a l1 Hs1 IH Ha]; intros l2 H2 Hiff.
  - destruct l2 as [| b l2]; [reflexivity |].
    exfalso. apply (proj2 (Hiff b)). now left.
  - destruct H2 as [| b l2 Hs2 Hb].
    + exfalso. apply (proj1 (Hiff a)). now left.
    + rewrite Forall_forall in Ha, Hb.
      assert (Hab : a = b).
      { destruct (proj1 (Hiff a) (or_introl eq_refl)) as [E | Hin1]; [now symmetry |].
        destruct (proj2 (Hiff b) (or_introl eq_refl)) as [E | Hin2]; [exact E |].
        specialize (Ha b Hin2). specialize (Hb a Hin1). lia. }
      subst b. f_equal. apply IH; [exact Hs2 |].
      intros k. split; intros Hk.
      * destruct (proj1 (Hiff k) (or_intror Hk)) as [E | Hin]; [| exact Hin].
        specialize (Ha k Hk). lia.
      * destruct (proj2 (Hiff k) (or_intror Hk)) as [E | Hin]; [| exact Hin].
        specialize (Hb k Hk). lia.
Qed.

Lemma Rsum_perm (l1 l2 : list R) : Permutation l1 l2 -> Rsum l1 = Rsum l2.
Proof.
  induction 1 as [| x l1 l2 _ IH | x y l | l1 l2 l3 _ IH1 _ IH2]; simpl; lra.
Qed.

Lemma Rmean_perm (l1 l2 : list R) : Permutation l1 l2 -> Rmean l1 = Rmean l2.
Proof.
  intros H. unfold Rmean.
  now rewrite (Rsum_perm _ _ H), (Permutation_length H).
Qed.

Lemma sharing_perm (k : Z) (df df' : list row) :
  Permutation df df' -> Permutation (sharing k df) (sharing k df').
Proof.
  unfold sharing.
  induction 1 as [| x l1 l2 _ IH | x y l | l1 l2 l3 _ IH1 _ IH2]; simpl.
  - constructor.
  - destruct (objid x =? k)%Z; [now constructor | exact IH].
  - destruct (objid x =? k)%Z, (objid y =? k)%Z;
      try reflexivity. apply perm_swap.
  - now transitivity (filter (fun r => (objid r =? k)%Z) l2).
Qed.

Lemma aggregate_cell_means (df : list row) :
  map (fun a => (objid a, specz a)) (aggregate_cell df) =
  map (fun k => (k, Rmean (map specz (sharing k df))))
      (map key (groupby_objid df)).
Proof.
  destruct (groupby_objid_grouped df) as (_ & Hm & _).
  unfold aggregate_cell. rewrite !map_map.
  apply map_ext_in. intros g Hg. cbn [agg objid specz].
  now rewrite (Hm g Hg).
Qed.

Lemma groupby_objid_keys (df : list row) (k : Z) :
  In k (map key (groupby_objid df)) <-> In k (map objid df).
Proof.
  destruct (groupby_objid_grouped df) as (_ & Hm & Hc). split.
  - intros Hk. apply in_map_iff in Hk. destruct Hk as (g & <- & Hg).
    assert (Hin : In (first_row g) (sharing (key g) df)).
    { rewrite <- (Hm g Hg). now left. }
    apply filter_In in Hin. destruct Hin as [Hin Hkey].
    apply Z.eqb_eq in Hkey. rewrite <- Hkey. now apply in_map.
  - intros Hk. apply in_map_iff in Hk. destruct Hk as (r & <- & Hr).
    now apply Hc.
Qed.

(** X17.  The identifiers and the mean redshifts of the aggregated table do
    not depend on the order of the rows of the catalogue: two catalogues with
    the same rows in any order give the same identifiers with the same mean
    redshifts, row for row (only the first-seen position and separation can
    differ). *)
Theorem aggregate_cell_order_independent :
  forall df df' : list row,
    Permutation df df' ->
    map (fun a => (objid a, specz a)) (aggregate_cell df) =
    map (fun a => (objid a, specz a)) (aggregate_cell df').
Proof.
  intros df df' Hperm. rewrite !aggregate_cell_means.
  assert (Hkeys : map key (groupby_objid df) = map key (groupby_objid df')).
  { apply sorted_same_members.
    - now destruct (groupby_objid_grouped df).
    - now destruct (groupby_objid_grouped df').
    - intros k. rewrite !groupby_objid_keys.
      split; intros H.
      + apply (Permutation_in k (Permutation_map objid Hperm) H).
      + apply (Permutation_in k (Permutation_map objid (Permutation_sym Hperm)) H). }
  rewrite Hkeys. apply map_ext. intros k. f_equal.
  apply Rmean_perm, Permutation_map, sharing_perm, Hperm.
Qed.

Lemma aggregate_cell_order_independent_witness :
  map (fun a => (objid a, specz a))
      (aggregate_cell [ mkRow 7 1 2 1 4; mkRow 3 5 6 2 8 ]) =
  map (fun a => (objid a, specz a))
      (aggregate_cell [ mkRow 3 5 6 2 8; mkRow 7 1 2 1 4 ]).
Proof.
  apply aggregate_cell_order_independent. apply perm_swap.
Defined.
